(** * Bashkir stress-rule filter: [stress_rules_filter.py]

    A shallow embedding of the word filter and the properties of its
    rule engine.  A Python [str] is a sequence of Unicode code points;
    the interpreter's own tables ([str.lower], the white-space class
    used by [str.strip] and [str.split], and [int]) are parameters of
    the development. *)

From Stdlib Require Import ZArith Strings.String Strings.Ascii Lia.
From stdpp Require Import base decidable option list gmap sets pretty.

Local Open Scope Z_scope.

(** ** Strings *)

(** A code point, and a Python [str]. *)
Abbreviation char := Z (only parsing).
Abbreviation str := (list Z) (only parsing).

Definition len (s : str) : Z := Z.of_nat (length s).

(** Source literals are written as in the Python file and decoded from
    their UTF-8 bytes. *)
Fixpoint bytes_of (s : string) : list Z :=
  match s with
  | EmptyString => []
  | String a r => Z.of_N (N_of_ascii a) :: bytes_of r
  end.

Definition cont (b : Z) : Z := Z.land b 63.

Fixpoint utf8_decode (bs : list Z) : str :=
  match bs with
  | [] => []
  | b0 :: r0 =>
    if b0 <? 128 then b0 :: utf8_decode r0
    else match r0 with
    | [] => []
    | b1 :: r1 =>
      if b0 <? 224 then
        Z.lor (Z.shiftl (Z.land b0 31) 6) (cont b1) :: utf8_decode r1
      else match r1 with
      | [] => []
      | b2 :: r2 =>
        if b0 <? 240 then
          Z.lor (Z.shiftl (Z.land b0 15) 12)
                (Z.lor (Z.shiftl (cont b1) 6) (cont b2)) :: utf8_decode r2
        else match r2 with
        | [] => []
        | b3 :: r3 =>
          Z.lor (Z.shiftl (Z.land b0 7) 18)
                (Z.lor (Z.shiftl (cont b1) 12)
                       (Z.lor (Z.shiftl (cont b2) 6) (cont b3)))
            :: utf8_decode r3
        end
      end
    end
  end.

Definition lit (s : string) : str := utf8_decode (bytes_of s).

(** [set('...')]: the set of the one-character strings of a literal. *)
Definition set_of_str (s : str) : gset str :=
  list_to_set ((λ c, [c]) <$> s).

(** [a in s] for a set [s]. *)
Definition in_set (a : str) (s : gset str) : bool := bool_decide (a ∈ s).

(** ** Exceptions *)

(** The exceptions the modelled code can meet; [ValueError] is raised by
    [int] only and is caught where it is raised, see [filter_body]. *)
Inductive exn := IndexError (msg : string).

Inductive result (A : Type) :=
  | Ok (a : A)
  | Raise (e : exn).
Arguments Ok {A} a.
Arguments Raise {A} e.

#[global] Instance result_ret : MRet result := @Ok.
#[global] Instance result_bind : MBind result := λ A B f m,
  match m with
  | Ok a => f a
  | Raise e => Raise e
  end.

(** [s[i]]: negative indices count from the end, anything outside
    [-len(s) .. len(s)-1] raises [IndexError]. *)
Definition subscript {A} (msg : string) (s : list A) (i : Z) : result A :=
  let n := Z.of_nat (length s) in
  let j := if i <? 0 then i + n else i in
  if (j <? 0) || (n <=? j) then Raise (IndexError msg)
  else match s !! Z.to_nat j with
       | Some c => Ok c
       | None => Raise (IndexError msg)
       end.

Definition getitem : str → Z → result char :=
  subscript "string index out of range".

Definition list_getitem : list str → Z → result str :=
  subscript "list index out of range".

(** [s.endswith(e)] and [s.startswith(p)]. *)
Definition startswith (s p : str) : bool := bool_decide (p `prefix_of` s).

Definition endswith (s e : str) : bool := bool_decide (e `suffix_of` s).

(** ** Control flow *)

(** [for x in xs: body], threading the loop's variables as a state. *)
Fixpoint for_loop {S A} (body : S → A → result S) (s : S) (xs : list A)
  : result S :=
  match xs with
  | [] => Ok s
  | x :: r => s' ← body s x; for_loop body s' r
  end.

(** [enumerate(xs)], counting from [i]. *)
Fixpoint enumerate_from {A} (i : Z) (xs : list A) : list (Z * A) :=
  match xs with
  | [] => []
  | x :: r => (i, x) :: enumerate_from (i + 1) r
  end.

Definition enumerate {A} (xs : list A) : list (Z * A) := enumerate_from 0 xs.

(** ** The rule engine *)

(** [get_bashkir_vowels()]. *)
Definition get_bashkir_vowels : gset str := set_of_str (lit "аәоөүуыиэеяю").

(** The locals [special_vowels] and [regular_vowels], computed alike in
    [is_vowel_in_context] and [find_last_vowel_index]. *)
Definition special_vowels : gset str := set_of_str (lit "үу").

Definition regular_vowels : gset str := get_bashkir_vowels ∖ special_vowels.

Definition simple_endings : list str :=
  lit <$> ["мо"; "ме"; "мө"; "мы"]%string.

Definition complex_endings : list str :=
  lit <$> ["боҙ"; "беҙ"; "быҙ"; "бөҙ"; "мен"; "мөн"; "мон"; "мын";
           "һең"; "һөң"; "һоң"; "һың"; "һегеҙ"; "һөгөҙ"; "һоғоҙ"; "һығыҙ";
           "са"; "сә"]%string.

Definition question_words : list str :=
  lit <$> ["кем"; "ниндәй"; "нисек"; "ҡайҙа"; "ниңә"; "нисә"; "ҡасан";
           "ҡайһы"; "ҡайҙан"; "нишләп"; "нимә"]%string.

Section Engine.

(** [str.lower] of the interpreter. *)
Variable lower : str → str.

(** [i > 0 and word[i-1].lower() in regular_vowels]; the right operand
    is evaluated only when the left one holds. *)
Definition prev_is_regular (word : str) (i : Z) : result bool :=
  if i >? 0
  then p ← getitem word (i - 1); Ok (in_set (lower [p]) regular_vowels)
  else Ok false.

(** [i < len(word) - 1 and word[i+1].lower() in regular_vowels]. *)
Definition next_is_regular (word : str) (i : Z) : result bool :=
  if i <? len word - 1
  then n ← getitem word (i + 1); Ok (in_set (lower [n]) regular_vowels)
  else Ok false.

Definition is_vowel_in_context (word : str) (index : Z) : result bool :=
  if (index <? 0) || (index >=? len word) then Ok false
  else
    c ← getitem word index;
    let char := lower [c] in
    if in_set char regular_vowels then Ok true
    else if in_set char special_vowels then
      prev ← prev_is_regular word index;
      if prev : bool then Ok false
      else
        next ← next_is_regular word index;
        if next : bool then Ok false else Ok true
    else Ok false.

(** One iteration of the loop of [find_last_vowel_index]; the state is
    [last_index]. *)
Definition find_last_vowel_body (word : str) (last_index : Z)
    (ic : Z * char) : result Z :=
  let '(i, char) := ic in
  let char_lower := lower [char] in
  if in_set char_lower regular_vowels then Ok i
  else if in_set char_lower special_vowels then
    let has_adjacent_vowel := false in
    prev ← prev_is_regular word i;
    let has_adjacent_vowel :=
      if prev : bool then true else has_adjacent_vowel in
    next ← next_is_regular word i;
    let has_adjacent_vowel :=
      if next : bool then true else has_adjacent_vowel in
    if negb has_adjacent_vowel then Ok i else Ok last_index
  else Ok last_index.

Definition find_last_vowel_index (word : str) : result Z :=
  for_loop (find_last_vowel_body word) (-1) (enumerate word).

(** Rule 1a: [any(word_lower.endswith(ending) for ending in simple_endings)]. *)
Definition simple_ending_rule (word_lower : str) : bool :=
  existsb (endswith word_lower) simple_endings.

(** Rule 1b: the loop over [complex_endings]; [Ok true] is the loop's
    [return True], [Ok false] is falling out of the loop. *)
Fixpoint complex_ending_loop (word word_lower : str) (endings : list str)
  : result bool :=
  match endings with
  | [] => Ok false
  | ending :: rest =>
    if endswith word_lower ending then
      let prefix_index := len word - len ending - 1 in
      if prefix_index >=? 0 then
        v ← is_vowel_in_context word prefix_index;
        if v : bool then complex_ending_loop word word_lower rest
        else Ok true
      else Ok true
    else complex_ending_loop word word_lower rest
  end.

Definition complex_ending_rule (word : str) : result bool :=
  complex_ending_loop word (lower word) complex_endings.

(** Rule 2: [any(word_lower.startswith(qword) for qword in question_words)]. *)
Definition question_word_rule (word_lower : str) : bool :=
  existsb (startswith word_lower) question_words.

(** Rule 3: [last_vowel_index != -1 and last_vowel_index == index]. *)
Definition last_vowel_rule (word : str) (index : Z) : result bool :=
  last_vowel_index ← find_last_vowel_index word;
  Ok (negb (last_vowel_index =? -1) && (last_vowel_index =? index)).

Definition should_exclude_word (word : str) (index : Z) : result bool :=
  let word_lower := lower word in
  if simple_ending_rule word_lower then Ok true
  else
    fired ← complex_ending_loop word word_lower complex_endings;
    if fired : bool then Ok true
    else if question_word_rule word_lower then Ok true
    else
      fired ← last_vowel_rule word index;
      if fired : bool then Ok true else Ok false.

End Engine.

(** ** The line processor *)

Definition newline : char := 10.

Definition carriage_return : char := 13.

(** Reading in text mode turns every line end, a carriage return with
    or without a newline after it, into one newline. *)
Fixpoint universal_newlines (s : str) : str :=
  match s with
  | [] => []
  | c :: r =>
    if c =? carriage_return then
      newline :: match r with
                 | [] => []
                 | d :: r' =>
                   if d =? newline then universal_newlines r'
                   else universal_newlines r
                 end
    else c :: universal_newlines r
  end.

(** The lines a text yields when iterated: each keeps its newline, the
    last one may lack it. *)
Fixpoint file_lines_go (cur content : str) : list str :=
  match content with
  | [] => if cur is [] then [] else [cur]
  | c :: r =>
    if c =? newline then (cur ++ [c]) :: file_lines_go [] r
    else file_lines_go (cur ++ [c]) r
  end.

(** [for line in f], for a file opened for reading with the decoded
    text [content]. *)
Definition file_lines (content : str) : list str :=
  file_lines_go [] (universal_newlines content).

(** The loop variables of [filter_words] that outlive an iteration, and
    what has been printed so far, one entry per [print]. *)
Record state := State { filtered_words : list str; stdout : list str }.

Definition print (st : state) (msg : str) : state :=
  State (filtered_words st) (stdout st ++ [msg]).

Definition append (st : state) (line : str) : state :=
  State (filtered_words st ++ [line]) (stdout st).

(** What a run leaves behind: the output file when it was written, the
    printed lines, the exit status. *)
Record outcome := Outcome {
  out_file : option str;
  printed : list str;
  exit_code : Z
}.

Definition warn_parts (line : str) : str :=
  lit "Предупреждение: некорректная строка '" ++ line ++ lit "', пропускаем".

Definition warn_index (line : str) : str :=
  lit "Предупреждение: некорректный индекс в строке '" ++ line
    ++ lit "', пропускаем".

Definition str_of_exn (e : exn) : str :=
  match e with IndexError msg => lit msg end.

Section Pipeline.

Variable lower : str → str.

(** [str.isspace] on one character: the class [strip] and [split]
    remove. *)
Variable isspace : char → bool.

(** [int(s)]; [None] is [ValueError]. *)
Variable int : str → option Z.

Fixpoint lstrip (s : str) : str :=
  match s with
  | [] => []
  | c :: r => if isspace c then lstrip r else s
  end.

Definition rstrip (s : str) : str := reverse (lstrip (reverse s)).

Definition strip (s : str) : str := rstrip (lstrip s).

(** [s.split()]: the maximal runs of characters that are not white
    space; [cur] is the run being read. *)
Fixpoint split_go (cur s : str) : list str :=
  match s with
  | [] => if cur is [] then [] else [cur]
  | c :: r =>
    if isspace c
    then (if cur is [] then split_go [] r else cur :: split_go [] r)
    else split_go (cur ++ [c]) r
  end.

Definition split (s : str) : list str := split_go [] s.

(** One iteration of [for line in f]. *)
Definition filter_body (st : state) (line : str) : result state :=
  let line := strip line in
  if bool_decide (line = []) then Ok st
  else
    let parts := split line in
    if negb (length parts =? 2)%nat then Ok (print st (warn_parts line))
    else
      word ← list_getitem parts 0;
      digits ← list_getitem parts 1;
      match int digits with
      | None => Ok (print st (warn_index line))
      | Some index =>
        exclude ← should_exclude_word lower word index;
        if negb exclude then Ok (append st line) else Ok st
      end.

(** The loop of [filter_words]; an exception leaves it with what was
    printed and kept before. *)
Fixpoint filter_loop (st : state) (lines : list str) : state * option exn :=
  match lines with
  | [] => (st, None)
  | line :: rest =>
    match filter_body st line with
    | Ok st' => filter_loop st' rest
    | Raise e => (st, Some e)
    end
  end.

(** [f.write(line + '\n')] for every kept line. *)
Definition written (lines : list str) : str :=
  concat ((λ line, line ++ [newline]) <$> lines).

(** [filter_words(input_file, output_file)]; [input] is the text of
    the input file, [None] when there is no such file.  The output
    file is taken to be writable. *)
Definition filter_words (input_file : str) (input : option str) : outcome :=
  match input with
  | None =>
    Outcome None [lit "Ошибка: файл '" ++ input_file ++ lit "' не найден"] 1
  | Some content =>
    match filter_loop (State [] []) (file_lines content) with
    | (st, Some e) =>
      Outcome None
        (stdout st ++ [lit "Ошибка при обработке: " ++ str_of_exn e]) 1
    | (st, None) =>
      Outcome (Some (written (filtered_words st)))
        (stdout st ++
           [lit "Обработка завершена успешно!";
            lit "Всего отфильтровано слов: "
              ++ lit (pretty (length (filtered_words st)))]) 0
    end
  end.

End Pipeline.

(** ** A concrete interpreter for running the model

    The tables below agree with the interpreter on the inputs they are
    used for: [cyrillic_lower] on Basic Latin and Cyrillic letters and on
    U+0130, whose lower case is two code points long; [ascii_int] on an
    optional sign followed by decimal digits. *)

Definition py_isspace (c : char) : bool :=
  ((9 <=? c) && (c <=? 13)) || ((28 <=? c) && (c <=? 32))
  || (c =? 133) || (c =? 160) || (c =? 5760)
  || ((8192 <=? c) && (c <=? 8202))
  || (c =? 8232) || (c =? 8233) || (c =? 8239) || (c =? 8287) || (c =? 12288).

Definition lower_char (c : char) : str :=
  if (65 <=? c) && (c <=? 90) then [c + 32]
  else if c =? 304 then [105; 775]
  else if (1024 <=? c) && (c <=? 1039) then [c + 80]
  else if (1040 <=? c) && (c <=? 1071) then [c + 32]
  else if c =? 1216 then [1231]
  else if (1217 <=? c) && (c <=? 1230) then [if Z.odd c then c + 1 else c]
  else if ((1120 <=? c) && (c <=? 1153)) || ((1162 <=? c) && (c <=? 1327))
       then [if Z.even c then c + 1 else c]
  else [c].

Definition cyrillic_lower (s : str) : str := concat (lower_char <$> s).

Fixpoint digits_value (acc : Z) (s : str) : option Z :=
  match s with
  | [] => Some acc
  | c :: r =>
    if (48 <=? c) && (c <=? 57) then digits_value (10 * acc + (c - 48)) r
    else None
  end.

Definition ascii_int (s : str) : option Z :=
  match s with
  | [] => None
  | c :: r =>
    if c =? 45 then (if r is [] then None else Z.opp <$> digits_value 0 r)
    else if c =? 43 then (if r is [] then None else digits_value 0 r)
    else digits_value 0 s
  end.

(** A file to run: a line with white space around it, a blank line, a
    malformed line, a line ended by a carriage return and a newline,
    and an excluded last line without a line end. *)
Definition sample : str :=
  lit "  ҡалам 1 " ++ [newline]
  ++ [newline]
  ++ lit "тел" ++ [newline]
  ++ lit "китап   0" ++ [carriage_return; newline]
  ++ lit "китапмо 1".

(** A well-formed line that no rule excludes, read with two spaces
    before it; a malformed line; two more well-formed lines. *)
Definition padded_line : str := lit "  ҡалам 1" ++ [newline].


Definition line_before : str := lit "ҡалам 1" ++ [newline].

Definition line_after : str := lit "китап 0" ++ [newline].

(** A blank line, and a well-formed line that the simple-ending rule
    excludes. *)
Definition blank_line : str := lit "  " ++ [newline].

Definition excluded_line : str := lit "китапмо 1" ++ [newline].

(** ** Specification-side notions *)

(** The character at a position, when the position exists. *)
Definition char_at (word : str) (position : Z) : option char :=
  if position <? 0 then None else word !! Z.to_nat position.

Section Notions.

Variable lower : str → str.

(** The position exists and holds a regular vowel, compared lowercased. *)
Definition neighbour_regular (word : str) (position : Z) : bool :=
  match char_at word position with
  | Some n => in_set (lower [n]) regular_vowels
  | None => false
  end.

(** The classifier as a total function. *)
Definition vowel_at (word : str) (position : Z) : bool :=
  match char_at word position with
  | None => false
  | Some c =>
    if in_set (lower [c]) regular_vowels then true
    else if in_set (lower [c]) special_vowels
    then negb (neighbour_regular word (position - 1))
         && negb (neighbour_regular word (position + 1))
    else false
  end.

End Notions.

(** How the loop of [filter_words] reads one line. *)
Inductive parsed :=
  | Blank
  | BadParts
  | BadIndex
  | Rec (word : str) (index : Z).

Section LineNotions.

Variable lower : str → str.
Variable isspace : char → bool.
Variable int : str → option Z.

(** Neither the first nor the last character is white space. *)
Definition trimmed (s : str) : Prop :=
  (∀ c r, s = c :: r → isspace c = false)
  ∧ (∀ r c, s = r ++ [c] → isspace c = false).

(** A line is blank, or has a wrong number of tokens, or a second
    token that is no integer, or is a well-formed record. *)
Definition parse_line (line : str) : parsed :=
  let line := strip isspace line in
  if bool_decide (line = []) then Blank
  else match split isspace line with
       | [word; digits] =>
         match int digits with
         | Some index => Rec word index
         | None => BadIndex
         end
       | _ => BadParts
       end.

(** The line is a well-formed record that no rule excludes. *)
Definition kept (line : str) : bool :=
  match parse_line line with
  | Rec word index =>
    match should_exclude_word lower word index with
    | Ok false => true
    | _ => false
    end
  | _ => false
  end.

(** The warning a malformed line is answered with. *)
Definition warning (line : str) : option str :=
  match parse_line line with
  | BadParts => Some (warn_parts (strip isspace line))
  | BadIndex => Some (warn_index (strip isspace line))
  | _ => None
  end.

End LineNotions.

(** * Properties *)

(** ** Subscripts and strings *)

Lemma char_at_range (word : str) (i : Z) :
  is_Some (char_at word i) ↔ 0 ≤ i < len word.
Proof.
  unfold char_at, len. destruct (Z.ltb_spec i 0) as [Hn|Hn].
  - split; [intros [c Hc]; discriminate | lia].
  - rewrite lookup_lt_is_Some. lia.
Qed.

Lemma char_at_None (word : str) (i : Z) :
  char_at word i = None ↔ i < 0 ∨ len word ≤ i.
Proof.
  rewrite eq_None_not_Some, char_at_range. lia.
Qed.

Lemma subscript_char_at msg (word : str) (i : Z) :
  0 ≤ i < len word →
  ∃ c, char_at word i = Some c ∧ subscript msg word i = Ok c.
Proof.
  intros Hi. destruct (proj2 (char_at_range word i) Hi) as [c Hc].
  exists c. split; [done|].
  unfold char_at, len in *.
  assert (E1 : (i <? 0) = false) by (apply Z.ltb_ge; lia).
  assert (E2 : (Z.of_nat (length word) <=? i) = false) by (apply Z.leb_gt; lia).
  rewrite E1 in Hc. unfold subscript. cbv zeta.
  rewrite E1. rewrite E1, E2. simpl. by rewrite Hc.
Qed.

Lemma getitem_char_at (word : str) (i : Z) (c : char) :
  char_at word i = Some c → getitem word i = Ok c.
Proof.
  intros Hc. assert (Hi : 0 ≤ i < len word).
  { apply char_at_range. by exists c. }
  destruct (subscript_char_at "string index out of range" word i Hi)
    as (c' & Hc' & Hg).
  unfold getitem. congruence.
Qed.

(** ** The two vowel scans *)

Section EngineFacts.

Variable lower : str → str.

Lemma prev_is_regular_ok (word : str) (i : Z) :
  0 ≤ i < len word →
  prev_is_regular lower word i = Ok (neighbour_regular lower word (i - 1)).
Proof.
  intros Hi. unfold prev_is_regular, neighbour_regular.
  destruct (Z.gtb_spec i 0) as [Hp|Hp].
  - destruct (subscript_char_at "x" word (i - 1)) as (p & Hp1 & _); [lia|].
    rewrite Hp1, (getitem_char_at _ _ _ Hp1). done.
  - assert (char_at word (i - 1) = None) as -> by (apply char_at_None; lia).
    done.
Qed.

Lemma next_is_regular_ok (word : str) (i : Z) :
  0 ≤ i < len word →
  next_is_regular lower word i = Ok (neighbour_regular lower word (i + 1)).
Proof.
  intros Hi. unfold next_is_regular, neighbour_regular.
  destruct (Z.ltb_spec i (len word - 1)) as [Hp|Hp].
  - destruct (subscript_char_at "x" word (i + 1)) as (p & Hp1 & _); [lia|].
    rewrite Hp1, (getitem_char_at _ _ _ Hp1). done.
  - assert (char_at word (i + 1) = None) as -> by (apply char_at_None; lia).
    done.
Qed.

(** The classifier never raises and computes [vowel_at lower]. *)
Lemma is_vowel_in_context_total (word : str) (index : Z) :
  is_vowel_in_context lower word index = Ok (vowel_at lower word index).
Proof.
  unfold is_vowel_in_context, vowel_at.
  destruct (char_at word index) as [c|] eqn:Hc.
  - assert (Hi : 0 ≤ index < len word) by (apply char_at_range; eauto).
    destruct (Z.ltb_spec index 0); [lia|].
    destruct (Z.geb_spec index (len word)); [lia|]. cbn [orb].
    rewrite (getitem_char_at _ _ _ Hc). cbn [mbind result_bind].
    destruct (in_set (lower [c]) regular_vowels); [done|].
    destruct (in_set (lower [c]) special_vowels); [|done].
    rewrite (prev_is_regular_ok _ _ Hi). cbn [mbind result_bind].
    destruct (neighbour_regular lower word (index - 1)); [done|].
    rewrite (next_is_regular_ok _ _ Hi). cbn [mbind result_bind].
    by destruct (neighbour_regular lower word (index + 1)).
  - apply char_at_None in Hc.
    destruct (Z.ltb_spec index 0); [done|].
    destruct (Z.geb_spec index (len word)); [done|lia].
Qed.

(** One iteration of the locator decides as the classifier does. *)
Lemma find_last_vowel_body_ok (word : str) (last i : Z) (c : char) :
  char_at word i = Some c →
  find_last_vowel_body lower word last (i, c)
  = Ok (if vowel_at lower word i then i else last).
Proof.
  intros Hc.
  assert (Hi : 0 ≤ i < len word) by (apply char_at_range; eauto).
  unfold find_last_vowel_body, vowel_at. rewrite Hc.
  destruct (in_set (lower [c]) regular_vowels); [done|].
  destruct (in_set (lower [c]) special_vowels); [|done].
  rewrite (prev_is_regular_ok _ _ Hi), (next_is_regular_ok _ _ Hi). simpl.
  destruct (neighbour_regular lower word (i - 1)),
           (neighbour_regular lower word (i + 1)); done.
Qed.

Lemma vowel_at_outside (word : str) (p : Z) :
  char_at word p = None → vowel_at lower word p = false.
Proof. intros H. unfold vowel_at. by rewrite H. Qed.

Lemma drop_cons_inv (word rest : str) (k : nat) (c : char) :
  drop k word = c :: rest →
  char_at word (Z.of_nat k) = Some c ∧ drop (S k) word = rest.
Proof.
  intros Hd. split.
  - unfold char_at. destruct (Z.ltb_spec (Z.of_nat k) 0); [lia|].
    rewrite Nat2Z.id.
    rewrite <- (Nat.add_0_r k), <- lookup_drop, Hd. done.
  - replace (S k) with (k + 1)%nat by lia.
    rewrite <- drop_drop, Hd. done.
Qed.

(** The loop of the locator, started at position [k] with [last] in
    hand: it ends, either on [last] when no later position is a vowel,
    or on the greatest vowel position from [k] on. *)
Lemma find_last_vowel_loop (word : str) :
  ∀ (rest : str) (k : nat) (last : Z),
    drop k word = rest →
    ∃ r, for_loop (find_last_vowel_body lower word) last
           (enumerate_from (Z.of_nat k) rest) = Ok r
         ∧ ((r = last ∧ ∀ p, Z.of_nat k ≤ p → vowel_at lower word p = false)
            ∨ (Z.of_nat k ≤ r < len word
               ∧ vowel_at lower word r = true
               ∧ ∀ p, r < p → vowel_at lower word p = false)).
Proof.
  induction rest as [|c rest IH]; intros k last Hd.
  - exists last. split; [done|]. left. split; [done|].
    intros p Hp. apply vowel_at_outside, char_at_None. right.
    apply drop_nil_inv in Hd. unfold len. lia.
  - apply drop_cons_inv in Hd as [Hc Hd].
    assert (Hk : 0 ≤ Z.of_nat k < len word) by (apply char_at_range; eauto).
    cbn [for_loop enumerate_from].
    rewrite (find_last_vowel_body_ok _ _ _ _ Hc). cbn [mbind result_bind].
    replace (Z.of_nat k + 1) with (Z.of_nat (S k)) by lia.
    destruct (IH (S k) (if vowel_at lower word (Z.of_nat k)
                        then Z.of_nat k else last) Hd)
      as (r & Hr & Hcase).
    exists r. split; [done|].
    destruct Hcase as [[-> Hno]|(Hrange & Hv & Hno)].
    + destruct (vowel_at lower word (Z.of_nat k)) eqn:Hvk.
      * right. split; [lia|]. split; [done|]. intros p Hp. apply Hno. lia.
      * left. split; [done|]. intros p Hp.
        destruct (decide (p = Z.of_nat k)) as [->|Hne]; [done|].
        apply Hno. lia.
    + right. split; [lia|]. done.
Qed.

Lemma find_last_vowel_index_scan (word : str) :
  ∃ r, find_last_vowel_index lower word = Ok r
       ∧ ((r = -1 ∧ ∀ p, vowel_at lower word p = false)
          ∨ (0 ≤ r < len word
             ∧ vowel_at lower word r = true
             ∧ ∀ p, r < p → vowel_at lower word p = false)).
Proof.
  destruct (find_last_vowel_loop word word 0 (-1) eq_refl)
    as (r & Hr & Hcase).
  exists r. split; [exact Hr|].
  destruct Hcase as [[-> Hno]|(Hrange & Hv & Hno)].
  - left. split; [done|]. intros p.
    destruct (Z.lt_ge_cases p 0) as [Hp|Hp].
    + apply vowel_at_outside, char_at_None. lia.
    + apply Hno. lia.
  - right. split; [lia|]. done.
Qed.

End EngineFacts.

(** ** The vowel alphabet *)

Lemma special_subset : special_vowels ⊆ get_bashkir_vowels.
Proof. apply (bool_decide_unpack _). vm_compute. exact I. Qed.

Lemma in_regular (a : str) :
  in_set a regular_vowels = true ↔ a ∈ get_bashkir_vowels ∧ a ∉ special_vowels.
Proof.
  unfold in_set, regular_vowels.
  rewrite bool_decide_eq_true, elem_of_difference. done.
Qed.

Lemma in_special (a : str) :
  in_set a special_vowels = true ↔ a ∈ special_vowels.
Proof. unfold in_set. by rewrite bool_decide_eq_true. Qed.

Lemma special_not_regular (a : str) :
  a ∈ special_vowels → in_set a regular_vowels = false.
Proof.
  intros Ha. apply not_true_is_false. rewrite in_regular. tauto.
Qed.

Lemma outside_alphabet (a : str) :
  a ∉ get_bashkir_vowels →
  in_set a regular_vowels = false ∧ in_set a special_vowels = false.
Proof.
  intros Ha. split; apply not_true_is_false.
  - rewrite in_regular. tauto.
  - rewrite in_special. intros Hs. apply Ha, special_subset, Hs.
Qed.

(** C6, amended.  The vowel alphabet returned by [get_bashkir_vowels] is
    a constant set of exactly twelve one-character strings: а, ә, о, ө,
    ү, у, ы, и, э, е, я, ю. *)
Theorem get_bashkir_vowels_twelve :
  size get_bashkir_vowels = 12%nat
  ∧ ∀ a : str,
      a ∈ get_bashkir_vowels ↔
      a ∈ lit <$> ["а"; "ә"; "о"; "ө"; "ү"; "у"; "ы"; "и"; "э"; "е"; "я";
                   "ю"]%string.
Proof.
  split; [vm_compute; reflexivity|].
  intros a. unfold get_bashkir_vowels, set_of_str.
  rewrite elem_of_list_to_set.
  replace ((λ c, [c]) <$> lit "аәоөүуыиэеяю")
    with (lit <$> ["а"; "ә"; "о"; "ө"; "ү"; "у"; "ы"; "и"; "э"; "е"; "я";
                   "ю"]%string)
    by (vm_compute; reflexivity).
  done.
Qed.

(** C6 as stated fails: the alphabet does not have eleven elements. *)
Lemma get_bashkir_vowels_not_eleven : size get_bashkir_vowels ≠ 11%nat.
Proof. vm_compute. discriminate. Qed.

(** ** The classifier and the locator *)

Section Vowels.

Variable lower : str → str.

(** C2.  [is_vowel_in_context] returns, never raising: false at a
    position out of range (negative or at least the length) and at a
    character outside the vowel alphabet; true at a regular vowel
    whatever its neighbours; at a special vowel, true unless the
    previous or the next character exists and is a regular vowel
    (compared lowercased), so that at either end of the word only the
    existing neighbour counts and a special vowel alone is a vowel. *)
Theorem is_vowel_in_context_cases (word : str) (index : Z) :
  ((index < 0 ∨ len word ≤ index) →
     is_vowel_in_context lower word index = Ok false)
  ∧ (∀ c, char_at word index = Some c →
       (lower [c] ∉ get_bashkir_vowels →
          is_vowel_in_context lower word index = Ok false)
       ∧ (lower [c] ∈ regular_vowels →
            is_vowel_in_context lower word index = Ok true)
       ∧ (lower [c] ∈ special_vowels →
            is_vowel_in_context lower word index
            = Ok (negb (neighbour_regular lower word (index - 1)
                        || neighbour_regular lower word (index + 1)))
            ∧ (index = 0 →
                 is_vowel_in_context lower word index
                 = Ok (negb (neighbour_regular lower word 1)))
            ∧ (index = len word - 1 →
                 is_vowel_in_context lower word index
                 = Ok (negb (neighbour_regular lower word (index - 1))))
            ∧ (len word = 1 →
                 is_vowel_in_context lower word index = Ok true))).
Proof.
  rewrite is_vowel_in_context_total. split.
  - intros Hout. f_equal. by apply vowel_at_outside, char_at_None.
  - intros c Hc. unfold vowel_at. rewrite Hc.
    assert (Hi : 0 ≤ index < len word) by (apply char_at_range; eauto).
    split; [|split].
    + intros Hout. apply outside_alphabet in Hout as [-> ->]. done.
    + intros Hreg. unfold in_set. by rewrite bool_decide_eq_true_2.
    + intros Hsp. rewrite (special_not_regular _ Hsp).
      rewrite (proj2 (in_special _) Hsp). rewrite negb_orb.
      split; [done|]. split; [|split].
      * intros ->. simpl.
        replace (neighbour_regular lower word (-1)) with false; [done|].
        unfold neighbour_regular, char_at. done.
      * intros Hlast.
        replace (neighbour_regular lower word (index + 1)) with false.
        { by rewrite andb_true_r. }
        unfold neighbour_regular.
        assert (char_at word (index + 1) = None) as ->; [|done].
        apply char_at_None. lia.
      * intros Hone.
        replace (neighbour_regular lower word (index - 1)) with false.
        { replace (neighbour_regular lower word (index + 1)) with false;
            [done|].
          unfold neighbour_regular.
          assert (char_at word (index + 1) = None) as ->; [|done].
          apply char_at_None. lia. }
        unfold neighbour_regular.
        assert (char_at word (index - 1) = None) as ->; [|done].
        apply char_at_None. lia.
Qed.

(** C3.  [find_last_vowel_index] returns the greatest position at
    which [is_vowel_in_context] is true, and -1 when there is none;
    at every position of every word one iteration of its scan takes
    the decision [is_vowel_in_context] takes there. *)
Theorem find_last_vowel_index_greatest (word : str) :
  (∃ r, find_last_vowel_index lower word = Ok r
        ∧ ((r = -1 ∧ ∀ p, is_vowel_in_context lower word p = Ok false)
           ∨ (0 ≤ r < len word
              ∧ is_vowel_in_context lower word r = Ok true
              ∧ ∀ p, r < p → is_vowel_in_context lower word p = Ok false)))
  ∧ (∀ i c last,
       char_at word i = Some c →
       find_last_vowel_body lower word last (i, c)
       = (v ← is_vowel_in_context lower word i;
          Ok (if v : bool then i else last))).
Proof.
  split.
  - destruct (find_last_vowel_index_scan lower word) as (r & Hr & Hcase).
    exists r. split; [exact Hr|].
    destruct Hcase as [[-> Hno]|(Hrange & Hv & Hno)].
    + left. split; [done|]. intros p. rewrite is_vowel_in_context_total.
      f_equal. apply Hno.
    + right. split; [lia|]. rewrite is_vowel_in_context_total.
      split; [by f_equal|].
      intros p Hp. rewrite is_vowel_in_context_total. f_equal. by apply Hno.
  - intros i c last Hc. rewrite is_vowel_in_context_total.
    by apply find_last_vowel_body_ok.
Qed.

Lemma last_vowel_rule_eq (word : str) (l : Z) :
  find_last_vowel_index lower word = Ok l →
  ∀ i, last_vowel_rule lower word i = Ok (bool_decide (l ≠ -1 ∧ l = i)).
Proof.
  intros Hl i. unfold last_vowel_rule. rewrite Hl. cbn [mbind result_bind].
  f_equal. apply eq_true_iff_eq.
  rewrite andb_true_iff, negb_true_iff, bool_decide_eq_true.
  rewrite Z.eqb_neq, Z.eqb_eq. reflexivity.
Qed.

Lemma last_vowel_rule_total (word : str) (index : Z) :
  ∃ b, last_vowel_rule lower word index = Ok b.
Proof.
  destruct (find_last_vowel_index_scan lower word) as (l & Hl & _).
  eexists. by apply last_vowel_rule_eq.
Qed.

Lemma complex_ending_rule_unfold (word : str) :
  complex_ending_rule lower word
  = complex_ending_loop lower word (lower word) complex_endings.
Proof. reflexivity. Qed.

Lemma should_exclude_word_last (word : str) (index : Z) :
  simple_ending_rule (lower word) = false →
  complex_ending_rule lower word = Ok false →
  question_word_rule (lower word) = false →
  should_exclude_word lower word index = last_vowel_rule lower word index.
Proof.
  intros H1 H2 H3. rewrite complex_ending_rule_unfold in H2.
  unfold should_exclude_word. cbv zeta.
  destruct (last_vowel_rule_total word index) as [b Hb].
  revert H1 H2 H3 Hb.
  generalize (simple_ending_rule (lower word))
             (complex_ending_loop lower word (lower word) complex_endings)
             (question_word_rule (lower word))
             (last_vowel_rule lower word index).
  intros b1 r2 b3 r4 -> -> -> ->. by destruct b.
Qed.

(** C4.  The last-vowel rule fires exactly when the last vowel index
    is not -1 and equals the index of the caller; a word without a
    qualifying vowel is not excluded by it at any index, -1 included;
    and it is this rule that decides [should_exclude_word] once the
    ending rules and the question-word rule have not fired. *)
Theorem last_vowel_rule_fires (word : str) (index : Z) :
  ∃ l, find_last_vowel_index lower word = Ok l
       ∧ last_vowel_rule lower word index
         = Ok (bool_decide (l ≠ -1 ∧ l = index))
       ∧ ((∀ p, is_vowel_in_context lower word p = Ok false) →
            l = -1 ∧ ∀ i, last_vowel_rule lower word i = Ok false)
       ∧ (simple_ending_rule (lower word) = false →
          complex_ending_rule lower word = Ok false →
          question_word_rule (lower word) = false →
          should_exclude_word lower word index
          = Ok (bool_decide (l ≠ -1 ∧ l = index))).
Proof.
  destruct (find_last_vowel_index_scan lower word) as (l & Hl & Hcase).
  pose proof (last_vowel_rule_eq word l Hl) as Hrule.
  exists l. split; [exact Hl|]. split; [apply Hrule|]. split.
  - intros Hnone.
    assert (l = -1) as ->.
    { destruct Hcase as [[-> _]|(_ & Hv & _)]; [reflexivity|].
      specialize (Hnone l). rewrite is_vowel_in_context_total in Hnone.
      congruence. }
    split; [reflexivity|]. intros i. rewrite Hrule.
    rewrite bool_decide_eq_false_2; [reflexivity|tauto].
  - intros H1 H2 H3. rewrite <- Hrule.
    by apply should_exclude_word_last.
Qed.

(** C10.  Only a regular vowel next to it demotes a special vowel: in
    a word made of 'ү' and 'у' alone every position is a vowel and the
    last vowel index is the last position.  The interpreter leaves
    these two lower-case letters as they are. *)
Theorem special_vowels_only (word : str) :
  lower (lit "ү") = lit "ү" →
  lower (lit "у") = lit "у" →
  Forall (λ c, [c] = lit "ү" ∨ [c] = lit "у") word →
  (∀ p, 0 ≤ p < len word → is_vowel_in_context lower word p = Ok true)
  ∧ find_last_vowel_index lower word = Ok (len word - 1).
Proof.
  intros Hy Hu Hall.
  assert (Hsp : ∀ p c, char_at word p = Some c → lower [c] ∈ special_vowels).
  { intros p c Hc. unfold char_at in Hc.
    destruct (p <? 0); [discriminate|].
    rewrite Forall_lookup in Hall. destruct (Hall _ _ Hc) as [->| ->].
    - rewrite Hy. apply (bool_decide_unpack _). vm_compute. exact I.
    - rewrite Hu. apply (bool_decide_unpack _). vm_compute. exact I. }
  assert (Hnb : ∀ p, neighbour_regular lower word p = false).
  { intros p. unfold neighbour_regular.
    destruct (char_at word p) as [c|] eqn:Hc; [|done].
    apply special_not_regular. by eapply Hsp. }
  assert (Hv : ∀ p, 0 ≤ p < len word → vowel_at lower word p = true).
  { intros p Hp. unfold vowel_at.
    destruct (proj2 (char_at_range word p) Hp) as [c Hc]. rewrite Hc.
    rewrite (special_not_regular _ (Hsp _ _ Hc)).
    rewrite (proj2 (in_special _) (Hsp _ _ Hc)).
    by rewrite !Hnb. }
  split.
  - intros p Hp. rewrite is_vowel_in_context_total. f_equal. by apply Hv.
  - destruct (find_last_vowel_index_scan lower word) as (r & Hr & Hcase).
    rewrite Hr. f_equal.
    destruct Hcase as [[-> Hno]|(Hrange & _ & Hno)].
    + destruct (decide (len word = 0)) as [H0|H0]; [lia|].
      assert (Hp : 0 ≤ 0 < len word) by (unfold len in *; lia).
      specialize (Hv 0 Hp). rewrite Hno in Hv. discriminate.
    + destruct (decide (r = len word - 1)) as [|Hne]; [done|].
      assert (Hp : 0 ≤ len word - 1 < len word) by lia.
      specialize (Hv _ Hp). rewrite Hno in Hv by lia. discriminate.
Qed.

End Vowels.

(** ** The rule engine *)

Section Rules.

Variable lower : str → str.

(** The loop over the guarded endings ends, and fires exactly on an
    ending of the list that matches with no vowel before it. *)
Lemma complex_ending_loop_fires (word word_lower : str) :
  ∀ endings : list str,
    ∃ fired,
      complex_ending_loop lower word word_lower endings = Ok fired
      ∧ (fired = true ↔
         ∃ ending, ending ∈ endings
                   ∧ ending `suffix_of` word_lower
                   ∧ (len word - len ending - 1 < 0
                      ∨ is_vowel_in_context lower word
                          (len word - len ending - 1) = Ok false)).
Proof.
  induction endings as [|e rest (fired & Hloop & Hiff)].
  - exists false. split; [done|]. split; [done|].
    intros (e & He & _). by apply elem_of_nil in He.
  - cbn [complex_ending_loop]. unfold endswith.
    destruct (decide (e `suffix_of` word_lower)) as [Hs|Hs].
    + rewrite (bool_decide_eq_true_2 _ Hs).
      destruct (Z.geb_spec (len word - len e - 1) 0) as [Hp|Hp].
      * rewrite is_vowel_in_context_total. cbn [mbind result_bind].
        destruct (vowel_at lower word (len word - len e - 1)) eqn:Hv.
        -- exists fired. split; [done|]. rewrite Hiff. split.
           ++ intros (e' & He' & Hrest). exists e'.
              split; [by apply elem_of_cons; right|done].
           ++ intros (e' & He' & Hs' & Hcond).
              apply elem_of_cons in He' as [->|He']; [|by exists e'].
              rewrite is_vowel_in_context_total, Hv in Hcond.
              destruct Hcond as [?|?]; [lia|discriminate].
        -- exists true. split; [done|]. split; [|done]. intros _.
           exists e. split; [by apply elem_of_cons; left|].
           split; [done|]. right.
           by rewrite is_vowel_in_context_total, Hv.
      * exists true. split; [done|]. split; [|done]. intros _.
        exists e. split; [by apply elem_of_cons; left|].
        split; [done|]. left. lia.
    + rewrite (bool_decide_eq_false_2 _ Hs).
      exists fired. split; [done|]. rewrite Hiff. split.
      * intros (e' & He' & Hrest). exists e'.
        split; [by apply elem_of_cons; right|done].
      * intros (e' & He' & Hs' & Hcond).
        apply elem_of_cons in He' as [->|He']; [done|by exists e'].
Qed.

(** A matching ending with a vowel before it sends the loop on to the
    endings after it. *)
Lemma complex_ending_loop_continue (word word_lower ending : str)
    (rest : list str) :
  ending `suffix_of` word_lower →
  0 ≤ len word - len ending - 1 →
  is_vowel_in_context lower word (len word - len ending - 1) = Ok true →
  complex_ending_loop lower word word_lower (ending :: rest)
  = complex_ending_loop lower word word_lower rest.
Proof.
  intros Hs Hp Hv. cbn [complex_ending_loop]. unfold endswith.
  rewrite (bool_decide_eq_true_2 _ Hs).
  destruct (Z.geb_spec (len word - len ending - 1) 0); [|lia].
  by rewrite Hv.
Qed.

(** [should_exclude_word] as the disjunction of its four rules. *)
Lemma should_exclude_word_eq (word : str) (index : Z) (fired : bool)
    (l : Z) :
  complex_ending_loop lower word (lower word) complex_endings = Ok fired →
  find_last_vowel_index lower word = Ok l →
  should_exclude_word lower word index
  = Ok (simple_ending_rule (lower word) || fired
        || question_word_rule (lower word)
        || (negb (l =? -1) && (l =? index))).
Proof.
  unfold should_exclude_word, last_vowel_rule. cbv zeta.
  generalize (simple_ending_rule (lower word))
             (complex_ending_loop lower word (lower word) complex_endings)
             (question_word_rule (lower word))
             (find_last_vowel_index lower word).
  intros b1 r2 b3 r4 -> ->. cbn [mbind result_bind].
  destruct b1, fired, b3, (negb (l =? -1) && (l =? index)); reflexivity.
Qed.

(** C1.  The guarded-ending rule returns, and fires exactly when some
    ending of [complex_endings] matches the end of the lowercased word
    and the position [len(word) - len(ending) - 1] before it is
    negative or is not a vowel for [is_vowel_in_context].  The list is
    walked in its order: a matching ending with a vowel before it
    leaves the decision to the endings after it.  When the rule fires
    the word is excluded. *)
Theorem complex_ending_rule_fires (word : str) :
  (∃ fired,
     complex_ending_rule lower word = Ok fired
     ∧ (fired = true ↔
        ∃ ending, ending ∈ complex_endings
                  ∧ ending `suffix_of` lower word
                  ∧ (len word - len ending - 1 < 0
                     ∨ is_vowel_in_context lower word
                         (len word - len ending - 1) = Ok false)))
  ∧ (∀ ending rest,
       ending `suffix_of` lower word →
       0 ≤ len word - len ending - 1 →
       is_vowel_in_context lower word (len word - len ending - 1) = Ok true →
       complex_ending_loop lower word (lower word) (ending :: rest)
       = complex_ending_loop lower word (lower word) rest)
  ∧ (∀ index,
       complex_ending_rule lower word = Ok true →
       should_exclude_word lower word index = Ok true).
Proof.
  split; [|split].
  - rewrite complex_ending_rule_unfold. apply complex_ending_loop_fires.
  - intros ending rest. apply complex_ending_loop_continue.
  - intros index Hfired. rewrite complex_ending_rule_unfold in Hfired.
    destruct (find_last_vowel_index_scan lower word) as (l & Hl & _).
    rewrite (should_exclude_word_eq _ _ _ _ Hfired Hl).
    by rewrite orb_true_r.
Qed.

(** C8.  [should_exclude_word] never raises: for every word and every
    integer index it returns a boolean, and that boolean depends on
    the index only through its being equal to the last vowel index or
    not. *)
Theorem should_exclude_word_total (word : str) :
  ∃ (l : Z) (on_match otherwise : bool),
    find_last_vowel_index lower word = Ok l
    ∧ ∀ index : Z,
        should_exclude_word lower word index
        = Ok (if index =? l then on_match else otherwise).
Proof.
  destruct (find_last_vowel_index_scan lower word) as (l & Hl & _).
  destruct (complex_ending_loop_fires word (lower word) complex_endings)
    as (fired & Hloop & _).
  exists l,
    (simple_ending_rule (lower word) || fired
     || question_word_rule (lower word) || negb (l =? -1)),
    (simple_ending_rule (lower word) || fired
     || question_word_rule (lower word)).
  split; [exact Hl|]. intros index.
  rewrite (should_exclude_word_eq _ _ _ _ Hloop Hl). f_equal.
  rewrite (Z.eqb_sym l index).
  destruct (index =? l).
  - by rewrite andb_true_r.
  - by rewrite andb_false_r, orb_false_r.
Qed.

End Rules.

(** ** Stripping and line splitting *)

Section Stripping.

Variable isspace : char → bool.

Lemma lstrip_split (l : str) :
  ∃ a, l = a ++ lstrip isspace l ∧ Forall (λ c, isspace c = true) a.
Proof.
  induction l as [|c l (a & Hl & Ha)].
  - by exists [].
  - cbn [lstrip]. destruct (isspace c) eqn:Hc.
    + exists (c :: a). split; [by rewrite Hl at 1|by constructor].
    + by exists [].
Qed.

Lemma lstrip_head (l r : str) (c : Z) :
  lstrip isspace l = c :: r → isspace c = false.
Proof.
  induction l as [|d l IH]; [done|]. cbn [lstrip].
  destruct (isspace d) eqn:Hd; [done|]. by intros [= <- _].
Qed.

Lemma lstrip_keep (c : Z) (r : str) :
  isspace c = false → lstrip isspace (c :: r) = c :: r.
Proof. intros Hc. cbn [lstrip]. by rewrite Hc. Qed.

(** [strip] cuts white space off both ends and nothing else. *)
Lemma strip_split (l : str) :
  ∃ a b, l = a ++ strip isspace l ++ b
         ∧ Forall (λ c, isspace c = true) a
         ∧ Forall (λ c, isspace c = true) b.
Proof.
  destruct (lstrip_split l) as (a & Hl & Ha).
  destruct (lstrip_split (reverse (lstrip isspace l))) as (b & Hr & Hb).
  exists a, (reverse b). split; [|split; [done|]].
  - unfold strip, rstrip. rewrite <- reverse_app, <- Hr, reverse_involutive.
    done.
  - by apply Forall_reverse.
Qed.

Lemma strip_trimmed (l : str) : trimmed isspace (strip isspace l).
Proof.
  unfold strip, rstrip. split.
  - intros c r Hs.
    destruct (lstrip_split (reverse (lstrip isspace l))) as (b & Hr & _).
    apply (f_equal reverse) in Hs. rewrite reverse_involutive in Hs.
    rewrite Hs, reverse_cons in Hr.
    apply (f_equal reverse) in Hr.
    rewrite reverse_involutive, !reverse_app, reverse_involutive in Hr.
    simpl in Hr. by apply lstrip_head in Hr.
  - intros r c Hs.
    apply (f_equal reverse) in Hs.
    rewrite reverse_involutive, reverse_snoc in Hs.
    by apply lstrip_head in Hs.
Qed.

Lemma strip_elem (l : str) (x : Z) : x ∈ strip isspace l → x ∈ l.
Proof.
  intros Hx. destruct (strip_split l) as (a & b & Hl & _).
  rewrite Hl, !elem_of_app. tauto.
Qed.

Section Newline.

Hypothesis isspace_newline : isspace newline = true.

(** A trimmed line followed by its newline strips back to itself. *)
Lemma strip_trimmed_newline (s : str) :
  trimmed isspace s → strip isspace (s ++ [newline]) = s.
Proof.
  intros [Hhead Hlast]. unfold strip, rstrip.
  destruct s as [|c r].
  - simpl. by rewrite isspace_newline.
  - rewrite <- app_comm_cons, (lstrip_keep _ _ (Hhead _ _ eq_refl)).
    rewrite app_comm_cons, reverse_snoc. cbn [lstrip].
    rewrite isspace_newline.
    destruct (exists_last (l := (c :: r))) as (r' & c' & Hs); [done|].
    rewrite Hs, reverse_snoc, (lstrip_keep _ _ (Hlast _ _ Hs)).
    by rewrite <- reverse_snoc, reverse_involutive.
Qed.

(** Stripping a line of a file leaves no newline in it. *)
Lemma strip_no_newline (body line : str) :
  newline ∉ body →
  line = body ++ [newline] ∨ line = body →
  newline ∉ strip isspace line.
Proof.
  intros Hbody [->| ->]; [|by intros ?%strip_elem].
  destruct (strip_split (body ++ [newline])) as (a & b & Hl & _ & _).
  destruct (strip_trimmed (body ++ [newline])) as [_ Hlast].
  revert Hl Hlast. generalize (strip isspace (body ++ [newline])).
  intros s Hl Hlast Hin.
  destruct (decide (b = [])) as [->|Hb].
  - rewrite app_nil_r in Hl.
    destruct (decide (s = [])) as [->|Hs]; [by apply elem_of_nil in Hin|].
    destruct (exists_last (l := s)) as (r & c & ->); [done|].
    rewrite app_assoc in Hl. apply app_inj_tail in Hl as [_ <-].
    specialize (Hlast _ _ eq_refl). congruence.
  - destruct (exists_last (l := b)) as (b' & c & ->); [done|].
    rewrite !app_assoc in Hl. apply app_inj_tail in Hl as [-> _].
    apply Hbody. rewrite !elem_of_app. tauto.
Qed.

End Newline.

End Stripping.

(** The lines of a file hold a newline at their end at most. *)
Lemma file_lines_go_shape (content : str) :
  ∀ cur line,
    newline ∉ cur →
    line ∈ file_lines_go cur content →
    ∃ body, (newline ∉ body) ∧ (line = body ++ [newline] ∨ line = body).
Proof.
  induction content as [|c content IH]; intros cur line Hcur Hin.
  - cbn [file_lines_go] in Hin. destruct cur as [|d cur].
    + by apply elem_of_nil in Hin.
    + apply list_elem_of_singleton in Hin as ->. eauto.
  - cbn [file_lines_go] in Hin. destruct (Z.eqb_spec c newline) as [->|Hc].
    + apply elem_of_cons in Hin as [->|Hin]; [eauto|].
      apply (IH [] line); [|done]. apply not_elem_of_nil.
    + apply (IH (cur ++ [c]) line); [|done].
      rewrite elem_of_app, list_elem_of_singleton. intros [?|?]; [done|].
      by apply Hc.
Qed.

Lemma file_lines_go_elem (content : str) :
  ∀ cur line x,
    line ∈ file_lines_go cur content → x ∈ line → x ∈ cur ∨ x ∈ content.
Proof.
  induction content as [|c content IH]; intros cur line x Hin Hx.
  - cbn [file_lines_go] in Hin. destruct cur as [|d cur].
    + by apply elem_of_nil in Hin.
    + apply list_elem_of_singleton in Hin as ->. by left.
  - cbn [file_lines_go] in Hin. destruct (c =? newline).
    + apply elem_of_cons in Hin as [->|Hin].
      * apply elem_of_app in Hx as [?|Hx]; [by left|].
        apply list_elem_of_singleton in Hx as ->. right. by left.
      * destruct (IH [] line x Hin Hx) as [H|H];
          [by apply elem_of_nil in H|right; by right].
    + destruct (IH (cur ++ [c]) line x Hin Hx) as [H|H]; [|right; by right].
      apply elem_of_app in H as [?|H]; [by left|].
      apply list_elem_of_singleton in H as ->. right. by left.
Qed.

(** No carriage return is left after the translation. *)
Lemma universal_newlines_no_cr (s : str) :
  carriage_return ∉ universal_newlines s.
Proof.
  assert (H : ∀ n (t : str),
             (length t ≤ n)%nat → carriage_return ∉ universal_newlines t).
  { induction n as [|n IH]; intros t Hn.
    - destruct t; [apply not_elem_of_nil|simpl in Hn; lia].
    - destruct t as [|c r]; [apply not_elem_of_nil|].
      cbn [universal_newlines]. simpl in Hn.
      destruct (Z.eqb_spec c carriage_return) as [->|Hc].
      + apply not_elem_of_cons. split; [done|].
        destruct r as [|d r']; [apply not_elem_of_nil|].
        simpl in Hn. destruct (d =? newline); apply IH; simpl; lia.
      + apply not_elem_of_cons. split; [congruence|]. apply IH. lia. }
  by apply (H (length s)).
Qed.

(** A text without carriage returns is read as it is. *)
Lemma universal_newlines_id (s : str) :
  carriage_return ∉ s → universal_newlines s = s.
Proof.
  induction s as [|c r IH]; [done|]. intros [Hc Hr]%not_elem_of_cons.
  cbn [universal_newlines].
  destruct (Z.eqb_spec c carriage_return); [congruence|]. by rewrite IH.
Qed.

Lemma file_lines_shape (content line : str) :
  line ∈ file_lines content →
  (carriage_return ∉ line)
  ∧ ∃ body, (newline ∉ body) ∧ (line = body ++ [newline] ∨ line = body).
Proof.
  unfold file_lines. intros Hin. split.
  - intros Hx. destruct (file_lines_go_elem _ _ _ _ Hin Hx) as [H|H].
    + by apply elem_of_nil in H.
    + by apply universal_newlines_no_cr in H.
  - revert Hin. apply file_lines_go_shape, not_elem_of_nil.
Qed.

(** Reading back what [written] wrote gives the lines written. *)
Lemma file_lines_go_line (l rest : str) :
  newline ∉ l →
  ∀ cur, file_lines_go cur (l ++ newline :: rest)
         = (cur ++ l ++ [newline]) :: file_lines_go [] rest.
Proof.
  induction l as [|c l IH]; intros Hl cur.
  - cbn [app file_lines_go]. by rewrite Z.eqb_refl.
  - apply not_elem_of_cons in Hl as [Hc Hl].
    cbn [app file_lines_go]. destruct (Z.eqb_spec c newline); [congruence|].
    rewrite (IH Hl). by rewrite <- !app_assoc.
Qed.

Lemma written_no_cr (lines : list str) :
  Forall (λ l, carriage_return ∉ l) lines → carriage_return ∉ written lines.
Proof.
  unfold written. induction 1 as [|l lines Hl _ IH]; [apply not_elem_of_nil|].
  cbn [fmap list_fmap concat]. rewrite !not_elem_of_app.
  split; [split; [done|]|done].
  apply not_elem_of_cons. split; [done|apply not_elem_of_nil].
Qed.

Lemma file_lines_written (lines : list str) :
  Forall (λ l, newline ∉ l) lines →
  Forall (λ l, carriage_return ∉ l) lines →
  file_lines (written lines) = (λ l, l ++ [newline]) <$> lines.
Proof.
  intros Hnl Hcr. unfold file_lines.
  rewrite (universal_newlines_id _ (written_no_cr _ Hcr)).
  unfold written. induction Hnl as [|l lines Hl _ IH]; [done|].
  apply Forall_cons in Hcr as [_ Hcr].
  cbn [fmap list_fmap concat]. rewrite <- app_assoc. cbn [app].
  rewrite (file_lines_go_line _ _ Hl). by rewrite (IH Hcr).
Qed.

(** ** The loop of the line processor *)

Section Loop.

Variable lower : str → str.
Variable isspace : char → bool.
Variable int : str → option Z.

Lemma should_exclude_word_ok (word : str) (index : Z) :
  ∃ b, should_exclude_word lower word index = Ok b.
Proof.
  destruct (find_last_vowel_index_scan lower word) as (l & Hl & _).
  destruct (complex_ending_loop_fires lower word (lower word)
              complex_endings) as (fired & Hloop & _).
  eexists. by apply should_exclude_word_eq.
Qed.

Lemma list_getitem_0 (w d : str) : list_getitem [w; d] 0 = Ok w.
Proof. reflexivity. Qed.

Lemma list_getitem_1 (w d : str) : list_getitem [w; d] 1 = Ok d.
Proof. reflexivity. Qed.

(** One iteration never raises: it keeps the line, or warns, or
    passes. *)
Lemma filter_body_eq (st : state) (line : str) :
  filter_body lower isspace int st line
  = Ok (State
          (filtered_words st
           ++ (if kept lower isspace int line
               then [strip isspace line] else []))
          (stdout st
           ++ (if warning isspace int line is Some msg then [msg] else []))).
Proof.
  unfold filter_body, kept, warning, parse_line. cbv zeta.
  destruct st as [fw out]. generalize (strip isspace line). intros s.
  destruct (bool_decide (s = [])).
  { cbn [filtered_words stdout]. by rewrite !app_nil_r. }
  destruct (split isspace s) as [|w [|d [|x parts]]];
    cbn [length Nat.eqb negb print append filtered_words stdout];
    rewrite ?app_nil_r; try reflexivity.
  rewrite list_getitem_0, list_getitem_1. cbn [mbind result_bind].
  destruct (int d) as [index|];
    cbn [print filtered_words stdout]; rewrite ?app_nil_r;
    [|reflexivity].
  destruct (should_exclude_word_ok w index) as [b ->].
  destruct b; cbn [mbind result_bind negb append filtered_words stdout];
    by rewrite ?app_nil_r.
Qed.

Lemma filter_loop_eq (lines : list str) :
  ∀ st,
    filter_loop lower isspace int st lines
    = (State
         (filtered_words st
          ++ (strip isspace <$> filter (λ l, kept lower isspace int l) lines))
         (stdout st ++ omap (warning isspace int) lines),
       None).
Proof.
  induction lines as [|line lines IH]; intros st.
  - cbn [filter_loop filter fmap list_fmap list_filter omap list_omap].
    rewrite !app_nil_r. by destruct st.
  - cbn [filter_loop]. rewrite filter_body_eq, IH.
    cbn [filtered_words stdout omap list_omap]. rewrite filter_cons.
    destruct (kept lower isspace int line) eqn:Hk.
    + rewrite decide_True by done.
      destruct (warning isspace int line);
        by rewrite <- ?app_assoc, ?app_nil_r.
    + rewrite decide_False by (by intros ?).
      destruct (warning isspace int line);
        by rewrite <- ?app_assoc, ?app_nil_r.
Qed.

(** A run on an existing file ends well: it writes the kept lines,
    stripped, and prints the warnings, then the summary. *)
Lemma filter_words_eq (input_file content : str) :
  filter_words lower isspace int input_file (Some content)
  = let lines :=
      strip isspace
        <$> filter (λ l, kept lower isspace int l) (file_lines content) in
    Outcome (Some (written lines))
      (omap (warning isspace int) (file_lines content)
       ++ [lit "Обработка завершена успешно!";
           lit "Всего отфильтровано слов: " ++ lit (pretty (length lines))])
      0.
Proof.
  unfold filter_words. rewrite filter_loop_eq.
  cbn [filtered_words stdout app]. reflexivity.
Qed.

(** Only the stripped line matters to the loop. *)
Lemma parse_line_strip (x y : str) :
  strip isspace x = strip isspace y →
  parse_line isspace int x = parse_line isspace int y.
Proof. intros H. unfold parse_line. by rewrite H. Qed.

Lemma kept_strip (x y : str) :
  strip isspace x = strip isspace y →
  kept lower isspace int x = kept lower isspace int y.
Proof. intros H. unfold kept. by rewrite (parse_line_strip x y H). Qed.

Lemma kept_parsed (line : str) :
  kept lower isspace int line = true →
  ∃ word index,
    parse_line isspace int line = Rec word index
    ∧ should_exclude_word lower word index = Ok false.
Proof.
  unfold kept. destruct (parse_line isspace int line) as [| | |w i];
    try discriminate.
  destruct (should_exclude_word lower w i) as [[|]|] eqn:Hx;
    try discriminate.
  eauto.
Qed.

Lemma kept_of_parsed (line word : str) (index : Z) :
  parse_line isspace int line = Rec word index →
  should_exclude_word lower word index = Ok false →
  kept lower isspace int line = true.
Proof. intros Hp Hx. unfold kept. by rewrite Hp, Hx. Qed.

Lemma parsed_not_blank (line word : str) (index : Z) :
  parse_line isspace int line = Rec word index → strip isspace line ≠ [].
Proof.
  unfold parse_line. cbv zeta. intros Hp Hs.
  by rewrite bool_decide_eq_true_2 in Hp.
Qed.

Section Rerun.

Hypothesis isspace_newline : isspace newline = true.

Lemma strip_written_line (line : str) :
  strip isspace (strip isspace line ++ [newline]) = strip isspace line.
Proof. apply strip_trimmed_newline; [done|apply strip_trimmed]. Qed.

Lemma refilter (lines : list str) :
  strip isspace
    <$> filter (λ l, kept lower isspace int l)
          ((λ l, l ++ [newline])
             <$> (strip isspace
                    <$> filter (λ l, kept lower isspace int l) lines))
  = strip isspace <$> filter (λ l, kept lower isspace int l) lines.
Proof.
  induction lines as [|line lines IH]; [done|].
  rewrite filter_cons.
  destruct (decide (kept lower isspace int line)) as [Hk|Hk]; [|done].
  cbn [fmap list_fmap]. rewrite filter_cons.
  rewrite decide_True.
  - cbn [fmap list_fmap] in *. by rewrite IH, strip_written_line.
  - rewrite (kept_strip _ line); [done|apply strip_written_line].
Qed.

Lemma kept_lines_no_newline (content : str) :
  Forall (λ l, newline ∉ l)
    (strip isspace
       <$> filter (λ l, kept lower isspace int l) (file_lines content)).
Proof.
  apply Forall_fmap, Forall_forall. intros line Hin.
  apply list_elem_of_filter in Hin as [_ Hin].
  destruct (file_lines_shape _ _ Hin) as (_ & body & Hbody & Hline).
  by apply (strip_no_newline isspace isspace_newline body).
Qed.

Lemma kept_lines_no_cr (content : str) :
  Forall (λ l, carriage_return ∉ l)
    (strip isspace
       <$> filter (λ l, kept lower isspace int l) (file_lines content)).
Proof.
  apply Forall_fmap, Forall_forall. intros line Hin.
  apply list_elem_of_filter in Hin as [_ Hin].
  destruct (file_lines_shape _ _ Hin) as (Hcr & _).
  intros Hx. by apply Hcr, (strip_elem isspace).
Qed.

End Rerun.

End Loop.

(** ** The pipeline *)

Lemma last_two {A} (l : list A) (a b : A) : last (l ++ [a; b]) = Some b.
Proof.
  change [a; b] with ([a] ++ [b]). by rewrite app_assoc, last_snoc.
Qed.

Section Runs.

Variable lower : str → str.
Variable isspace : char → bool.
Variable int : str → option Z.

(** C7, amended.  Every kept record is written stripped and otherwise
    as it was read: a run writes, in input order and each followed by
    one newline, the lines that are well formed and excluded by no
    rule, with the white space before and after them cut off and
    nothing else changed; a line that had none around it but its
    newline comes out as it came in.  No written line is empty or
    holds a newline, so the output has no blank line. *)
Theorem kept_lines_written (input_file content : str) :
  isspace newline = true →
  ∃ lines : list str,
    out_file (filter_words lower isspace int input_file (Some content))
    = Some (written lines)
    ∧ lines
      = strip isspace
          <$> filter (λ l, kept lower isspace int l) (file_lines content)
    ∧ file_lines (written lines) = (λ l, l ++ [newline]) <$> lines
    ∧ (∀ l, l ∈ lines → l ≠ [] ∧ newline ∉ l)
    ∧ (∀ line word index,
         line ∈ file_lines content →
         parse_line isspace int line = Rec word index →
         should_exclude_word lower word index = Ok false →
         strip isspace line ++ [newline] ∈ file_lines (written lines)
         ∧ (∃ a b, line = a ++ strip isspace line ++ b
                   ∧ Forall (λ c, isspace c = true) a
                   ∧ Forall (λ c, isspace c = true) b)
         ∧ (∀ s, line = s ++ [newline] → trimmed isspace s →
                 line ∈ file_lines (written lines))).
Proof.
  intros Hnl. eexists. rewrite filter_words_eq. cbv zeta.
  split; [reflexivity|]. split; [reflexivity|].
  pose proof (kept_lines_no_newline lower isspace int Hnl content) as Hno.
  pose proof (kept_lines_no_cr lower isspace int content) as Hcr.
  pose proof (file_lines_written _ Hno Hcr) as Hread.
  split; [exact Hread|]. split.
  - intros l Hl. split; [|by apply (proj1 (Forall_forall _ _) Hno)].
    apply list_elem_of_fmap in Hl as (line & -> & Hin).
    apply list_elem_of_filter in Hin as [Hk _].
    apply Is_true_true in Hk.
    apply kept_parsed in Hk as (w & i & Hp & _).
    by apply parsed_not_blank in Hp.
  - intros line word index Hin Hp Hx.
    assert (Hk : kept lower isspace int line = true)
      by (by eapply kept_of_parsed).
    assert (Hout : strip isspace line ++ [newline]
                   ∈ file_lines
                       (written
                          (strip isspace
                             <$> filter (λ l, kept lower isspace int l)
                                   (file_lines content)))).
    { rewrite Hread. apply list_elem_of_fmap.
      exists (strip isspace line). split; [done|].
      apply list_elem_of_fmap. exists line. split; [done|].
      apply list_elem_of_filter. split; [by apply Is_true_true|done]. }
    split; [exact Hout|]. split; [apply strip_split|].
    intros s -> Hs. by rewrite (strip_trimmed_newline _ Hnl _ Hs) in Hout.
Qed.

(** C5.  The pipeline is idempotent: run on the file it wrote, it
    writes the same file again, the same records in the same order;
    a line kept once reads back as the same word and index and is
    kept again. *)
Theorem filter_words_idempotent (input_file output_file content : str) :
  isspace newline = true →
  ∃ out : str,
    out_file (filter_words lower isspace int input_file (Some content))
    = Some out
    ∧ out_file (filter_words lower isspace int output_file (Some out))
      = Some out
    ∧ (∀ line,
         line ∈ file_lines content →
         kept lower isspace int line = true →
         strip isspace line ++ [newline] ∈ file_lines out
         ∧ parse_line isspace int (strip isspace line ++ [newline])
           = parse_line isspace int line
         ∧ kept lower isspace int (strip isspace line ++ [newline]) = true).
Proof.
  intros Hnl. eexists. rewrite !filter_words_eq. cbv zeta.
  split; [reflexivity|].
  pose proof (kept_lines_no_newline lower isspace int Hnl content) as Hno.
  pose proof (kept_lines_no_cr lower isspace int content) as Hcr.
  rewrite (file_lines_written _ Hno Hcr). split.
  - by rewrite (refilter lower isspace int Hnl).
  - intros line Hin Hk. split; [|split].
    + apply list_elem_of_fmap.
      exists (strip isspace line). split; [done|].
      apply list_elem_of_fmap. exists line. split; [done|].
      apply list_elem_of_filter. split; [by apply Is_true_true|done].
    + apply parse_line_strip. by apply strip_written_line.
    + rewrite <- Hk. apply kept_strip. by apply strip_written_line.
Qed.


End Runs.

(** ** The properties at work *)

(** The empty word has no vowel, whatever the interpreter's tables. *)
Example empty_word (lower : str → str) :
  find_last_vowel_index lower [] = Ok (-1).
Proof. reflexivity. Qed.

Example all_consonants :
  find_last_vowel_index cyrillic_lower (lit "тл") = Ok (-1)
  ∧ should_exclude_word cyrillic_lower (lit "тл") (-1) = Ok false.
Proof. split; vm_compute; reflexivity. Qed.

(** The scenarios of the rule engine: a simple ending, a question word
    in capitals, a guarded ending after a vowel and after a consonant. *)
Example simple_ending :
  should_exclude_word cyrillic_lower (lit "китапмо") 1 = Ok true.
Proof. vm_compute. reflexivity. Qed.

Example question_word :
  should_exclude_word cyrillic_lower (lit "КЕМДЕР") 0 = Ok true.
Proof. vm_compute. reflexivity. Qed.

Example guarded_ending :
  complex_ending_rule cyrillic_lower (lit "аса") = Ok false
  ∧ complex_ending_rule cyrillic_lower (lit "са") = Ok true
  ∧ complex_ending_rule cyrillic_lower (lit "йылмайһың") = Ok true.
Proof. repeat split; vm_compute; reflexivity. Qed.

(** A run on [sample], and a run without an input file. *)
Example run_sample :
  filter_words cyrillic_lower py_isspace ascii_int (lit "in.txt") (Some sample)
  = Outcome
      (Some (lit "ҡалам 1" ++ [newline] ++ lit "китап   0" ++ [newline]))
      [warn_parts (lit "тел");
       lit "Обработка завершена успешно!";
       lit "Всего отфильтровано слов: 2"]
      0.
Proof. vm_compute. reflexivity. Qed.

Example run_no_file :
  filter_words cyrillic_lower py_isspace ascii_int (lit "in.txt") None
  = Outcome None [lit "Ошибка: файл 'in.txt' не найден"] 1.
Proof. vm_compute. reflexivity. Qed.

(** 'у' after 'а' in "ҡау" is no vowel. *)
Lemma is_vowel_in_context_cases_witness :
  char_at (lit "ҡау") 2 = Some 1091
  ∧ cyrillic_lower [1091] ∈ special_vowels
  ∧ is_vowel_in_context cyrillic_lower (lit "ҡау") 2 = Ok false.
Proof.
  assert (Hc : char_at (lit "ҡау") 2 = Some 1091) by (vm_compute; reflexivity).
  assert (Hs : cyrillic_lower [1091] ∈ special_vowels)
    by (apply (bool_decide_unpack _); vm_compute; exact I).
  split; [exact Hc|]. split; [exact Hs|].
  destruct (is_vowel_in_context_cases cyrillic_lower (lit "ҡау") 2)
    as [_ Hcases].
  destruct (Hcases 1091 Hc) as (_ & _ & Hspecial).
  destruct (Hspecial Hs) as [Heq _].
  rewrite Heq. vm_compute. reflexivity.
Defined.

(** The scan of "ҡау" at 'а' moves the last index there. *)
Lemma find_last_vowel_index_greatest_witness :
  char_at (lit "ҡау") 1 = Some 1072
  ∧ find_last_vowel_index cyrillic_lower (lit "ҡау") = Ok 1
  ∧ find_last_vowel_body cyrillic_lower (lit "ҡау") (-1) (1, 1072) = Ok 1.
Proof.
  assert (Hc : char_at (lit "ҡау") 1 = Some 1072) by (vm_compute; reflexivity).
  split; [exact Hc|]. split; [vm_compute; reflexivity|].
  destruct (find_last_vowel_index_greatest cyrillic_lower (lit "ҡау"))
    as [_ Hbody].
  rewrite (Hbody 1 1072 (-1) Hc). vm_compute. reflexivity.
Defined.

(** "ҡалам" with the index of its last vowel falls to the last rule. *)
Lemma last_vowel_rule_fires_witness :
  simple_ending_rule (cyrillic_lower (lit "ҡалам")) = false
  ∧ complex_ending_rule cyrillic_lower (lit "ҡалам") = Ok false
  ∧ question_word_rule (cyrillic_lower (lit "ҡалам")) = false
  ∧ should_exclude_word cyrillic_lower (lit "ҡалам") 3 = Ok true.
Proof.
  assert (H1 : simple_ending_rule (cyrillic_lower (lit "ҡалам")) = false)
    by (vm_compute; reflexivity).
  assert (H2 : complex_ending_rule cyrillic_lower (lit "ҡалам") = Ok false)
    by (vm_compute; reflexivity).
  assert (H3 : question_word_rule (cyrillic_lower (lit "ҡалам")) = false)
    by (vm_compute; reflexivity).
  split; [exact H1|]. split; [exact H2|]. split; [exact H3|].
  destruct (last_vowel_rule_fires cyrillic_lower (lit "ҡалам") 3)
    as (l & Hl & _ & _ & Hlast).
  assert (Hl3 : find_last_vowel_index cyrillic_lower (lit "ҡалам") = Ok 3)
    by (vm_compute; reflexivity).
  rewrite Hl3 in Hl. injection Hl as <-.
  rewrite (Hlast H1 H2 H3). clear. vm_compute. reflexivity.
Defined.

(** "йылмайһың" ends in "һың" after the consonant 'й'. *)
Lemma complex_ending_rule_fires_witness :
  complex_ending_rule cyrillic_lower (lit "йылмайһың") = Ok true
  ∧ should_exclude_word cyrillic_lower (lit "йылмайһың") 2 = Ok true.
Proof.
  assert (H : complex_ending_rule cyrillic_lower (lit "йылмайһың") = Ok true)
    by (vm_compute; reflexivity).
  split; [exact H|].
  destruct (complex_ending_rule_fires cyrillic_lower (lit "йылмайһың"))
    as (_ & _ & Hexcl).
  exact (Hexcl 2 H).
Defined.

(** "үуү": three special vowels in a row, each one a vowel. *)
Lemma special_vowels_only_witness :
  cyrillic_lower (lit "ү") = lit "ү"
  ∧ cyrillic_lower (lit "у") = lit "у"
  ∧ Forall (λ c, [c] = lit "ү" ∨ [c] = lit "у") (lit "үуү")
  ∧ is_vowel_in_context cyrillic_lower (lit "үуү") 1 = Ok true
  ∧ find_last_vowel_index cyrillic_lower (lit "үуү") = Ok 2.
Proof.
  assert (Hy : cyrillic_lower (lit "ү") = lit "ү") by (vm_compute; reflexivity).
  assert (Hu : cyrillic_lower (lit "у") = lit "у") by (vm_compute; reflexivity).
  assert (Hall : Forall (λ c, [c] = lit "ү" ∨ [c] = lit "у") (lit "үуү")).
  { change (lit "үуү") with [1199; 1091; 1199].
    repeat (constructor;
            [first [left; vm_compute; reflexivity
                   |right; vm_compute; reflexivity]|]).
    constructor. }
  split; [exact Hy|]. split; [exact Hu|]. split; [exact Hall|].
  destruct (special_vowels_only cyrillic_lower (lit "үуү") Hy Hu Hall)
    as [Hv Hlast].
  split; [|exact Hlast].
  apply Hv. vm_compute. split; [discriminate|reflexivity].
Defined.

Lemma kept_lines_written_witness :
  py_isspace newline = true
  ∧ out_file (filter_words cyrillic_lower py_isspace ascii_int (lit "in.txt")
                (Some sample))
    = Some (lit "ҡалам 1" ++ [newline] ++ lit "китап   0" ++ [newline]).
Proof.
  assert (Hnl : py_isspace newline = true) by reflexivity.
  split; [exact Hnl|].
  destruct (kept_lines_written cyrillic_lower py_isspace ascii_int
              (lit "in.txt") sample Hnl) as (lines & Hout & -> & _).
  rewrite Hout. vm_compute. reflexivity.
Defined.

Lemma filter_words_idempotent_witness :
  py_isspace newline = true
  ∧ ∃ out,
      out_file (filter_words cyrillic_lower py_isspace ascii_int
                  (lit "in.txt") (Some sample)) = Some out
      ∧ out_file (filter_words cyrillic_lower py_isspace ascii_int
                    (lit "out.txt") (Some out)) = Some out.
Proof.
  assert (Hnl : py_isspace newline = true) by reflexivity.
  split; [exact Hnl|].
  destruct (filter_words_idempotent cyrillic_lower py_isspace ascii_int
              (lit "in.txt") (lit "out.txt") sample Hnl)
    as (out & Hout & Hagain & _).
  exists out. split; [exact Hout|exact Hagain].
Defined.


(** C7 as stated fails: a well-formed line that no rule excludes, read
    with two spaces before it, is not in the output as it was read. *)
Lemma kept_line_not_verbatim :
  file_lines padded_line = [padded_line]
  ∧ parse_line py_isspace ascii_int padded_line = Rec (lit "ҡалам") 1
  ∧ should_exclude_word cyrillic_lower (lit "ҡалам") 1 = Ok false
  ∧ out_file (filter_words cyrillic_lower py_isspace ascii_int
                (lit "in.txt") (Some padded_line))
    = Some (lit "ҡалам 1" ++ [newline])
  ∧ file_lines (lit "ҡалам 1" ++ [newline]) = [lit "ҡалам 1" ++ [newline]]
  ∧ padded_line ∉ file_lines (lit "ҡалам 1" ++ [newline]).
Proof.
  assert (Hread : file_lines (lit "ҡалам 1" ++ [newline])
                  = [lit "ҡалам 1" ++ [newline]]) by (vm_compute; reflexivity).
  split; [vm_compute; reflexivity|]. split; [vm_compute; reflexivity|].
  split; [vm_compute; reflexivity|]. split; [vm_compute; reflexivity|].
  split; [exact Hread|].
  rewrite Hread. intros Hin. apply list_elem_of_singleton in Hin.
  vm_compute in Hin. discriminate.
Qed.

(** * Further properties of the rule engine *)

Section EngineMore.

Variable lower : str → str.

Lemma vowel_at_true (word : str) (p : Z) :
  vowel_at lower word p = true → 0 ≤ p < len word.
Proof.
  intros Hv. apply char_at_range. unfold vowel_at in Hv.
  destruct (char_at word p); [eauto|discriminate].
Qed.

(** The two outcomes of the scan exclude each other: the index found
    is determined by the vowel positions. *)
Lemma scan_unique (word word' : str) (r r' : Z) :
  (∀ p, vowel_at lower word p = vowel_at lower word' p) →
  (r = -1 ∧ ∀ p, vowel_at lower word p = false)
  ∨ (0 ≤ r < len word
     ∧ vowel_at lower word r = true
     ∧ ∀ p, r < p → vowel_at lower word p = false) →
  (r' = -1 ∧ ∀ p, vowel_at lower word' p = false)
  ∨ (0 ≤ r' < len word'
     ∧ vowel_at lower word' r' = true
     ∧ ∀ p, r' < p → vowel_at lower word' p = false) →
  r = r'.
Proof.
  intros Hsame [[-> Hno]|(Hr & Hv & Hafter)] [[-> Hno']|(Hr' & Hv' & Hafter')].
  - done.
  - rewrite <- Hsame, Hno in Hv'. discriminate.
  - rewrite Hsame, Hno' in Hv. discriminate.
  - destruct (Z.lt_trichotomy r r') as [Hlt|[->|Hgt]]; [|done|].
    + rewrite <- Hsame, (Hafter _ Hlt) in Hv'. discriminate.
    + rewrite Hsame, (Hafter' _ Hgt) in Hv. discriminate.
Qed.

(** X1.  [should_exclude_word] returns True exactly when one of its
    four rules holds, whatever their order: the lowercased word ends
    in a simple ending, or the guarded-ending loop fires, or the
    lowercased word starts with a question word, or the index is the
    last vowel index; otherwise it returns False. *)
Theorem should_exclude_word_rules (word : str) (index : Z) :
  ∃ b, should_exclude_word lower word index = Ok b
       ∧ (b = true ↔
          (∃ ending, ending ∈ simple_endings ∧ ending `suffix_of` lower word)
          ∨ complex_ending_rule lower word = Ok true
          ∨ (∃ qword, qword ∈ question_words ∧ qword `prefix_of` lower word)
          ∨ (index ≠ -1 ∧ find_last_vowel_index lower word = Ok index)).
Proof.
  destruct (find_last_vowel_index_scan lower word) as (l & Hl & _).
  destruct (complex_ending_loop_fires lower word (lower word)
              complex_endings) as (fired & Hloop & _).
  eexists. split; [by apply should_exclude_word_eq|].
  rewrite complex_ending_rule_unfold, Hloop, Hl.
  rewrite !orb_true_iff, andb_true_iff, negb_true_iff, Z.eqb_neq, Z.eqb_eq.
  unfold simple_ending_rule, question_word_rule.
  rewrite !existsb_exists.
  assert (Hs : (∃ x, In x simple_endings ∧ endswith (lower word) x = true)
               ↔ ∃ ending, ending ∈ simple_endings
                           ∧ ending `suffix_of` lower word).
  { split; intros (e & He & Hm); exists e; unfold endswith in *;
      rewrite list_elem_of_In, bool_decide_eq_true in *; done. }
  assert (Hq : (∃ x, In x question_words ∧ startswith (lower word) x = true)
               ↔ ∃ qword, qword ∈ question_words
                          ∧ qword `prefix_of` lower word).
  { split; intros (e & He & Hm); exists e; unfold startswith in *;
      rewrite list_elem_of_In, bool_decide_eq_true in *; done. }
  rewrite Hs, Hq. clear Hs Hq. split.
  - intros [[[?| ->]|?]|[? ->]]; auto.
  - intros [?|[[= ->]|[?|[? [= ->]]]]]; auto.
Qed.

(** X2.  The last-vowel rule fires exactly when the index is a position
    of the word, [is_vowel_in_context] is true there and false at every
    later position; an index outside the word never fires it. *)
Theorem last_vowel_rule_position (word : str) (index : Z) :
  last_vowel_rule lower word index = Ok true
  ↔ 0 ≤ index < len word
    ∧ is_vowel_in_context lower word index = Ok true
    ∧ ∀ p, index < p → is_vowel_in_context lower word p = Ok false.
Proof.
  destruct (find_last_vowel_index_scan lower word) as (l & Hl & Hcase).
  rewrite (last_vowel_rule_eq lower word l Hl). split.
  - intros [= Hb]. apply bool_decide_eq_true in Hb as [Hne <-].
    destruct Hcase as [[-> _]|(Hr & Hv & Hafter)]; [done|].
    split; [done|]. rewrite is_vowel_in_context_total. split; [by f_equal|].
    intros p Hp. rewrite is_vowel_in_context_total. f_equal. by apply Hafter.
  - intros (Hr & Hv & Hafter). f_equal. apply bool_decide_eq_true.
    rewrite is_vowel_in_context_total in Hv. injection Hv as Hv.
    assert (l = index) as ->; [|split; [lia|done]].
    apply (scan_unique word word); [done|exact Hcase|].
    right. split; [done|]. split; [done|].
    intros p Hp. specialize (Hafter p Hp).
    rewrite is_vowel_in_context_total in Hafter. by injection Hafter.
Qed.

(** X3.  The last vowel index is -1 exactly when no character of the
    word lowercases into the vowel alphabet: a special vowel is only
    demoted next to a regular vowel, which then counts itself. *)
Theorem no_vowel_no_letter (word : str) :
  find_last_vowel_index lower word = Ok (-1)
  ↔ ∀ c, c ∈ word → lower [c] ∉ get_bashkir_vowels.
Proof.
  destruct (find_last_vowel_index_scan lower word) as (l & Hl & Hcase).
  rewrite Hl.
  assert (Hreg : ∀ p n, char_at word p = Some n →
                        in_set (lower [n]) regular_vowels = true →
                        vowel_at lower word p = true).
  { intros p n Hn Hin. unfold vowel_at. by rewrite Hn, Hin. }
  split.
  - intros [= ->]. destruct Hcase as [[_ Hno]|(Hr & _)]; [|lia].
    intros c Hc Hin. apply list_elem_of_lookup in Hc as [i Hi].
    assert (Hat : char_at word (Z.of_nat i) = Some c).
    { unfold char_at. destruct (Z.ltb_spec (Z.of_nat i) 0); [lia|].
      by rewrite Nat2Z.id. }
    pose proof (Hno (Z.of_nat i)) as Hv. unfold vowel_at in Hv.
    rewrite Hat in Hv.
    destruct (in_set (lower [c]) regular_vowels) eqn:Hrc; [discriminate|].
    assert (Hsp : in_set (lower [c]) special_vowels = true).
    { apply in_special. apply not_true_iff_false in Hrc.
      rewrite in_regular in Hrc.
      destruct (decide (lower [c] ∈ special_vowels)); [done|tauto]. }
    rewrite Hsp in Hv. apply andb_false_iff in Hv.
    assert (Hnb : ∀ q, neighbour_regular lower word q = true → False).
    { intros q Hq. unfold neighbour_regular in Hq.
      destruct (char_at word q) as [n|] eqn:Hn; [|discriminate].
      pose proof (Hno q) as Hf. rewrite (Hreg q n Hn Hq) in Hf.
      discriminate. }
    destruct Hv as [Hv|Hv]; apply negb_false_iff in Hv; by eapply Hnb.
  - intros Hout. f_equal.
    destruct Hcase as [[-> _]|(Hr & Hv & _)]; [done|]. exfalso.
    unfold vowel_at in Hv.
    destruct (char_at word l) as [c|] eqn:Hc; [|discriminate].
    assert (Hin : c ∈ word).
    { unfold char_at in Hc. destruct (l <? 0); [discriminate|].
      by eapply list_elem_of_lookup_2. }
    destruct (outside_alphabet _ (Hout c Hin)) as [H1 H2].
    rewrite H1, H2 in Hv. discriminate.
Qed.

(** X4.  A regular vowel bounds the last vowel index from below. *)
Theorem regular_vowel_bound (word : str) (i : Z) (c : char) :
  char_at word i = Some c →
  lower [c] ∈ regular_vowels →
  ∃ l, find_last_vowel_index lower word = Ok l ∧ i ≤ l < len word.
Proof.
  intros Hc Hreg.
  destruct (find_last_vowel_index_scan lower word) as (l & Hl & Hcase).
  exists l. split; [done|].
  assert (Hv : vowel_at lower word i = true).
  { unfold vowel_at, in_set. by rewrite Hc, bool_decide_eq_true_2. }
  destruct Hcase as [[_ Hno]|(Hr & _ & Hafter)].
  - rewrite Hno in Hv. discriminate.
  - split; [|lia]. destruct (Z.le_gt_cases i l) as [|Hgt]; [done|].
    rewrite Hafter in Hv by lia. discriminate.
Qed.

End EngineMore.

Section EngineCase.

Variable lower : str → str.

(** X5.  The classifier looks at three characters only: two positions,
    in one word or in two, with the same character on them and the same
    characters before and after them are classified alike. *)
Theorem is_vowel_in_context_local (word word' : str) (i j : Z) :
  char_at word (i - 1) = char_at word' (j - 1) →
  char_at word i = char_at word' j →
  char_at word (i + 1) = char_at word' (j + 1) →
  is_vowel_in_context lower word i = is_vowel_in_context lower word' j.
Proof.
  intros Hp Hc Hn. rewrite !is_vowel_in_context_total. f_equal.
  unfold vowel_at, neighbour_regular. by rewrite Hp, Hc, Hn.
Qed.

Lemma char_at_Forall2 (P : Z → Z → Prop) (word word' : str) (p : Z) :
  Forall2 P word word' →
  match char_at word p, char_at word' p with
  | Some c, Some c' => P c c'
  | None, None => True
  | _, _ => False
  end.
Proof.
  intros Hall. unfold char_at. destruct (p <? 0); [done|].
  destruct (word !! Z.to_nat p) as [c|] eqn:Hc.
  - destruct (Forall2_lookup_l _ _ _ _ _ Hall Hc) as (c' & -> & HP). done.
  - destruct (word' !! Z.to_nat p) as [c'|] eqn:Hc'; [|done].
    destruct (Forall2_lookup_r _ _ _ _ _ Hall Hc') as (c & Hc2 & _).
    congruence.
Qed.

Lemma vowel_at_same_lower (word word' : str) (p : Z) :
  Forall2 (λ c c', lower [c] = lower [c']) word word' →
  vowel_at lower word p = vowel_at lower word' p.
Proof.
  intros Hall.
  assert (Hnb : ∀ q, neighbour_regular lower word q
                     = neighbour_regular lower word' q).
  { intros q. unfold neighbour_regular.
    pose proof (char_at_Forall2 _ _ _ q Hall) as H.
    destruct (char_at word q), (char_at word' q); try done. by rewrite H. }
  unfold vowel_at. pose proof (char_at_Forall2 _ _ _ p Hall) as H.
  destruct (char_at word p), (char_at word' p); try done.
  by rewrite H, !Hnb.
Qed.

(** X6.  The decision does not depend on the case of the word: two
    words with the same lowercased form, whose characters lowercase
    alike one by one, are excluded or kept together at every index. *)
Theorem should_exclude_word_case (word word' : str) (index : Z) :
  lower word = lower word' →
  Forall2 (λ c c', lower [c] = lower [c']) word word' →
  should_exclude_word lower word index
  = should_exclude_word lower word' index.
Proof.
  intros Hlow Hall.
  assert (Hsame : ∀ p, vowel_at lower word p = vowel_at lower word' p)
    by (intros p; by apply vowel_at_same_lower).
  assert (Hlen : len word = len word').
  { unfold len. by rewrite (Forall2_length _ _ _ Hall). }
  destruct (find_last_vowel_index_scan lower word) as (l & Hl & Hcase).
  destruct (find_last_vowel_index_scan lower word') as (l' & Hl' & Hcase').
  assert (l = l') as <- by (by eapply scan_unique).
  assert (Hloop : ∀ endings,
             complex_ending_loop lower word (lower word) endings
             = complex_ending_loop lower word' (lower word') endings).
  { rewrite <- Hlow. induction endings as [|e rest IH]; [done|].
    cbn [complex_ending_loop]. rewrite !is_vowel_in_context_total.
    rewrite <- Hlen, <- Hsame, IH. done. }
  destruct (complex_ending_loop_fires lower word (lower word)
              complex_endings) as (fired & Hfired & _).
  rewrite (should_exclude_word_eq lower word index fired l Hfired Hl).
  rewrite Hloop in Hfired.
  rewrite (should_exclude_word_eq lower word' index fired l Hfired Hl').
  by rewrite Hlow.
Qed.

End EngineCase.

(** No guarded ending is the end of another one. *)
Lemma complex_endings_antichain (e1 e2 : str) :
  e1 ∈ complex_endings → e2 ∈ complex_endings →
  e1 `suffix_of` e2 → e1 = e2.
Proof.
  intros H1 H2 Hs.
  assert (Hall : forallb (λ a, forallb (λ b,
                    implb (bool_decide (a `suffix_of` b))
                          (bool_decide (a = b)))
                    complex_endings) complex_endings = true)
    by (vm_compute; reflexivity).
  rewrite forallb_forall in Hall.
  apply list_elem_of_In in H1, H2.
  specialize (Hall e1 H1). rewrite forallb_forall in Hall.
  specialize (Hall e2 H2).
  rewrite (bool_decide_eq_true_2 _ Hs) in Hall.
  by apply bool_decide_eq_true in Hall.
Qed.

Lemma complex_endings_one_match (word e1 e2 : str) :
  e1 ∈ complex_endings → e2 ∈ complex_endings →
  e1 `suffix_of` word → e2 `suffix_of` word → e1 = e2.
Proof.
  intros H1 H2 Hs1 Hs2.
  destruct (suffix_weak_total _ _ _ Hs1 Hs2) as [H|H].
  - by apply complex_endings_antichain.
  - symmetry. by apply complex_endings_antichain.
Qed.

Section EngineEndings.

Variable lower : str → str.

(** X7.  At most one guarded ending matches a word, so the loop over
    them meets one match at most and its order decides nothing. *)
Theorem complex_ending_unique (word ending ending' : str) :
  ending ∈ complex_endings →
  ending' ∈ complex_endings →
  endswith (lower word) ending = true →
  endswith (lower word) ending' = true →
  ending = ending'.
Proof.
  unfold endswith. rewrite !bool_decide_eq_true.
  apply complex_endings_one_match.
Qed.

(** X8.  A word with a guarded ending after a vowel is not excluded by
    the guarded-ending rule: no other ending of the list can fire in
    its place. *)
Theorem complex_ending_after_vowel (word ending : str) :
  ending ∈ complex_endings →
  ending `suffix_of` lower word →
  0 ≤ len word - len ending - 1 →
  is_vowel_in_context lower word (len word - len ending - 1) = Ok true →
  complex_ending_rule lower word = Ok false.
Proof.
  intros Hin Hs Hp Hv. rewrite complex_ending_rule_unfold.
  destruct (complex_ending_loop_fires lower word (lower word)
              complex_endings) as (fired & -> & Hiff).
  f_equal. destruct fired; [|done]. exfalso.
  destruct (proj1 Hiff eq_refl) as (e & He & Hse & Hcond).
  assert (e = ending) as -> by (by eapply complex_endings_one_match).
  destruct Hcond as [?|Hf]; [lia|congruence].
Qed.

End EngineEndings.

(** * Further properties of the line processor *)

Section RunsMore.

Variable lower : str → str.
Variable isspace : char → bool.
Variable int : str → option Z.

Lemma kept_no_warning (line : str) :
  kept lower isspace int line = true → warning isspace int line = None.
Proof.
  intros Hk. apply kept_parsed in Hk as (w & i & Hp & _).
  unfold warning. by rewrite Hp.
Qed.

Lemma warning_strip (x y : str) :
  strip isspace x = strip isspace y →
  warning isspace int x = warning isspace int y.
Proof.
  intros H. unfold warning. by rewrite (parse_line_strip isspace int x y H), H.
Qed.



(** A line that is neither kept nor warned about leaves no trace. *)
Lemma silent_line (input_file content content' line : str)
    (before after : list str) :
  file_lines content = before ++ line :: after →
  file_lines content' = before ++ after →
  kept lower isspace int line = false →
  warning isspace int line = None →
  filter_words lower isspace int input_file (Some content)
  = filter_words lower isspace int input_file (Some content').
Proof.
  intros H1 H2 Hk Hw. rewrite !filter_words_eq. cbv zeta. rewrite H1, H2.
  rewrite !filter_app, filter_cons, decide_False by (rewrite Hk; by intros ?).
  rewrite !omap_app. cbn [omap list_omap]. by rewrite Hw.
Qed.


(** X10.  A blank line is passed over in silence: the run with it and
    the run without it write and print the same. *)
Theorem blank_line_ignored (input_file content content' blank : str)
    (before after : list str) :
  file_lines content = before ++ blank :: after →
  file_lines content' = before ++ after →
  strip isspace blank = [] →
  filter_words lower isspace int input_file (Some content)
  = filter_words lower isspace int input_file (Some content').
Proof.
  intros H1 H2 Hb.
  assert (Hp : parse_line isspace int blank = Blank).
  { unfold parse_line. cbv zeta. by rewrite Hb. }
  eapply silent_line; [done|done| |].
  - unfold kept. by rewrite Hp.
  - unfold warning. by rewrite Hp.
Qed.

(** X11.  A well-formed line whose record a rule excludes is dropped in
    silence: the run writes and prints what it does without that line,
    and the line, stripped, is not among the written ones. *)
Theorem excluded_line_dropped
    (input_file content content' line word digits : str)
    (index : Z) (before after : list str) :
  file_lines content = before ++ line :: after →
  file_lines content' = before ++ after →
  strip isspace line ≠ [] →
  split isspace (strip isspace line) = [word; digits] →
  int digits = Some index →
  should_exclude_word lower word index = Ok true →
  filter_words lower isspace int input_file (Some content)
  = filter_words lower isspace int input_file (Some content')
  ∧ ∃ lines,
      out_file (filter_words lower isspace int input_file (Some content))
      = Some (written lines)
      ∧ strip isspace line ∉ lines.
Proof.
  intros H1 H2 Hne Hsplit Hint Hx.
  assert (Hp : parse_line isspace int line = Rec word index).
  { unfold parse_line. cbv zeta.
    by rewrite bool_decide_eq_false_2, Hsplit, Hint. }
  assert (Hk : kept lower isspace int line = false).
  { unfold kept. by rewrite Hp, Hx. }
  split.
  - eapply silent_line; [done|done|done|]. unfold warning. by rewrite Hp.
  - rewrite filter_words_eq. cbv zeta. eexists. split; [reflexivity|].
    intros Hin. apply list_elem_of_fmap in Hin as (l & Hs & Hin).
    apply list_elem_of_filter in Hin as [Hkl _]. apply Is_true_true in Hkl.
    rewrite (kept_strip lower isspace int l line) in Hkl by done.
    congruence.
Qed.

(** X12.  Run on the file it wrote, the pipeline prints no warning, and
    the same count as the run that wrote it. *)
Theorem rerun_is_quiet (input_file output_file content : str) :
  isspace newline = true →
  ∃ out count : str,
    out_file (filter_words lower isspace int input_file (Some content))
    = Some out
    ∧ last (printed (filter_words lower isspace int input_file (Some content)))
      = Some count
    ∧ filter_words lower isspace int output_file (Some out)
      = Outcome (Some out) [lit "Обработка завершена успешно!"; count] 0.
Proof.
  intros Hnl. eexists _, _. rewrite !filter_words_eq. cbv zeta.
  split; [reflexivity|]. split; [apply last_two|].
  pose proof (kept_lines_no_newline lower isspace int Hnl content) as Hno.
  pose proof (kept_lines_no_cr lower isspace int content) as Hcr.
  rewrite (file_lines_written _ Hno Hcr).
  rewrite (refilter lower isspace int Hnl).
  assert (Hquiet : ∀ lines,
             omap (warning isspace int)
               ((λ l, l ++ [newline])
                  <$> (strip isspace
                         <$> filter (λ l, kept lower isspace int l) lines))
             = []).
  { induction lines as [|line lines IH]; [done|].
    rewrite filter_cons.
    destruct (decide (kept lower isspace int line)) as [Hk|Hk]; [|done].
    cbn [fmap list_fmap omap list_omap].
    rewrite (warning_strip _ line) by (by apply strip_written_line).
    apply Is_true_true in Hk. rewrite (kept_no_warning _ Hk). exact IH. }
  by rewrite Hquiet.
Qed.

End RunsMore.

(** ** The further properties at work *)

(** 'а' in "ҡау" bounds the last vowel index. *)
Lemma regular_vowel_bound_witness :
  char_at (lit "ҡау") 1 = Some 1072
  ∧ cyrillic_lower [1072] ∈ regular_vowels
  ∧ ∃ l, find_last_vowel_index cyrillic_lower (lit "ҡау") = Ok l ∧ 1 ≤ l < 3.
Proof.
  assert (Hc : char_at (lit "ҡау") 1 = Some 1072) by (vm_compute; reflexivity).
  assert (Hr : cyrillic_lower [1072] ∈ regular_vowels)
    by (apply (bool_decide_unpack _); vm_compute; exact I).
  split; [exact Hc|]. split; [exact Hr|].
  exact (regular_vowel_bound cyrillic_lower (lit "ҡау") 1 1072 Hc Hr).
Defined.

(** 'у' after 'а' is classified alike in "ҡау" and in "тау". *)
Lemma is_vowel_in_context_local_witness :
  char_at (lit "ҡау") 1 = char_at (lit "тау") 1
  ∧ char_at (lit "ҡау") 2 = char_at (lit "тау") 2
  ∧ char_at (lit "ҡау") 3 = char_at (lit "тау") 3
  ∧ is_vowel_in_context cyrillic_lower (lit "ҡау") 2
    = is_vowel_in_context cyrillic_lower (lit "тау") 2.
Proof.
  assert (H1 : char_at (lit "ҡау") (2 - 1) = char_at (lit "тау") (2 - 1))
    by (vm_compute; reflexivity).
  assert (H2 : char_at (lit "ҡау") 2 = char_at (lit "тау") 2)
    by (vm_compute; reflexivity).
  assert (H3 : char_at (lit "ҡау") (2 + 1) = char_at (lit "тау") (2 + 1))
    by (vm_compute; reflexivity).
  split; [exact H1|]. split; [exact H2|]. split; [exact H3|].
  exact (is_vowel_in_context_local cyrillic_lower (lit "ҡау") (lit "тау")
           2 2 H1 H2 H3).
Defined.

(** "КЕМДЕР" and "кемдер" are decided alike. *)
Lemma should_exclude_word_case_witness :
  cyrillic_lower (lit "КЕМДЕР") = cyrillic_lower (lit "кемдер")
  ∧ Forall2 (λ c c', cyrillic_lower [c] = cyrillic_lower [c'])
      (lit "КЕМДЕР") (lit "кемдер")
  ∧ should_exclude_word cyrillic_lower (lit "КЕМДЕР") 0
    = should_exclude_word cyrillic_lower (lit "кемдер") 0.
Proof.
  assert (H1 : cyrillic_lower (lit "КЕМДЕР") = cyrillic_lower (lit "кемдер"))
    by (vm_compute; reflexivity).
  assert (H2 : Forall2 (λ c c', cyrillic_lower [c] = cyrillic_lower [c'])
                 (lit "КЕМДЕР") (lit "кемдер")).
  { change (lit "КЕМДЕР") with [1050; 1045; 1052; 1044; 1045; 1056].
    change (lit "кемдер") with [1082; 1077; 1084; 1076; 1077; 1088].
    repeat (constructor; [vm_compute; reflexivity|]). constructor. }
  split; [exact H1|]. split; [exact H2|].
  exact (should_exclude_word_case cyrillic_lower _ _ 0 H1 H2).
Defined.

(** "йылмайһың" ends in "һың" and in no other guarded ending. *)
Lemma complex_ending_unique_witness :
  lit "һың" ∈ complex_endings
  ∧ endswith (cyrillic_lower (lit "йылмайһың")) (lit "һың") = true
  ∧ lit "һың" = lit "һың".
Proof.
  assert (H1 : lit "һың" ∈ complex_endings)
    by (apply (bool_decide_unpack _); vm_compute; exact I).
  assert (H2 : endswith (cyrillic_lower (lit "йылмайһың")) (lit "һың") = true)
    by (vm_compute; reflexivity).
  split; [exact H1|]. split; [exact H2|].
  exact (complex_ending_unique cyrillic_lower (lit "йылмайһың")
           (lit "һың") (lit "һың") H1 H1 H2 H2).
Defined.

(** "аса" ends in "са" after the vowel 'а'. *)
Lemma complex_ending_after_vowel_witness :
  lit "са" ∈ complex_endings
  ∧ lit "са" `suffix_of` cyrillic_lower (lit "аса")
  ∧ 0 ≤ len (lit "аса") - len (lit "са") - 1
  ∧ is_vowel_in_context cyrillic_lower (lit "аса")
      (len (lit "аса") - len (lit "са") - 1) = Ok true
  ∧ complex_ending_rule cyrillic_lower (lit "аса") = Ok false.
Proof.
  assert (H1 : lit "са" ∈ complex_endings)
    by (apply (bool_decide_unpack _); vm_compute; exact I).
  assert (H2 : lit "са" `suffix_of` cyrillic_lower (lit "аса"))
    by (apply (bool_decide_unpack _); vm_compute; exact I).
  assert (H3 : 0 ≤ len (lit "аса") - len (lit "са") - 1)
    by (vm_compute; discriminate).
  assert (H4 : is_vowel_in_context cyrillic_lower (lit "аса")
                 (len (lit "аса") - len (lit "са") - 1) = Ok true)
    by (vm_compute; reflexivity).
  split; [exact H1|]. split; [exact H2|]. split; [exact H3|].
  split; [exact H4|].
  exact (complex_ending_after_vowel cyrillic_lower _ _ H1 H2 H3 H4).
Defined.

Lemma blank_line_ignored_witness :
  file_lines (line_before ++ blank_line ++ line_after)
  = [line_before] ++ blank_line :: [line_after]
  ∧ file_lines (line_before ++ line_after) = [line_before] ++ [line_after]
  ∧ strip py_isspace blank_line = []
  ∧ filter_words cyrillic_lower py_isspace ascii_int (lit "in.txt")
      (Some (line_before ++ blank_line ++ line_after))
    = filter_words cyrillic_lower py_isspace ascii_int (lit "in.txt")
        (Some (line_before ++ line_after)).
Proof.
  assert (H1 : file_lines (line_before ++ blank_line ++ line_after)
               = [line_before] ++ blank_line :: [line_after])
    by (vm_compute; reflexivity).
  assert (H2 : file_lines (line_before ++ line_after)
               = [line_before] ++ [line_after])
    by (vm_compute; reflexivity).
  assert (H3 : strip py_isspace blank_line = []) by (vm_compute; reflexivity).
  split; [exact H1|]. split; [exact H2|]. split; [exact H3|].
  exact (blank_line_ignored cyrillic_lower py_isspace ascii_int (lit "in.txt")
           _ _ _ _ _ H1 H2 H3).
Defined.

Lemma excluded_line_dropped_witness :
  file_lines (line_before ++ excluded_line ++ line_after)
  = [line_before] ++ excluded_line :: [line_after]
  ∧ file_lines (line_before ++ line_after) = [line_before] ++ [line_after]
  ∧ strip py_isspace excluded_line ≠ []
  ∧ split py_isspace (strip py_isspace excluded_line)
    = [lit "китапмо"; lit "1"]
  ∧ ascii_int (lit "1") = Some 1
  ∧ should_exclude_word cyrillic_lower (lit "китапмо") 1 = Ok true
  ∧ filter_words cyrillic_lower py_isspace ascii_int (lit "in.txt")
      (Some (line_before ++ excluded_line ++ line_after))
    = filter_words cyrillic_lower py_isspace ascii_int (lit "in.txt")
        (Some (line_before ++ line_after)).
Proof.
  assert (H1 : file_lines (line_before ++ excluded_line ++ line_after)
               = [line_before] ++ excluded_line :: [line_after])
    by (vm_compute; reflexivity).
  assert (H2 : file_lines (line_before ++ line_after)
               = [line_before] ++ [line_after])
    by (vm_compute; reflexivity).
  assert (H3 : strip py_isspace excluded_line ≠ [])
    by (vm_compute; discriminate).
  assert (H4 : split py_isspace (strip py_isspace excluded_line)
               = [lit "китапмо"; lit "1"]) by (vm_compute; reflexivity).
  assert (H5 : ascii_int (lit "1") = Some 1) by (vm_compute; reflexivity).
  assert (H6 : should_exclude_word cyrillic_lower (lit "китапмо") 1 = Ok true)
    by (vm_compute; reflexivity).
  split; [exact H1|]. split; [exact H2|]. split; [exact H3|].
  split; [exact H4|]. split; [exact H5|]. split; [exact H6|].
  exact (proj1 (excluded_line_dropped cyrillic_lower py_isspace ascii_int
                  (lit "in.txt") _ _ _ _ _ _ _ _ H1 H2 H3 H4 H5 H6)).
Defined.

Lemma rerun_is_quiet_witness :
  py_isspace newline = true
  ∧ ∃ out count,
      out_file (filter_words cyrillic_lower py_isspace ascii_int
                  (lit "in.txt") (Some sample)) = Some out
      ∧ filter_words cyrillic_lower py_isspace ascii_int (lit "out.txt")
          (Some out)
        = Outcome (Some out) [lit "Обработка завершена успешно!"; count] 0.
Proof.
  assert (Hnl : py_isspace newline = true) by reflexivity.
  split; [exact Hnl|].
  destruct (rerun_is_quiet cyrillic_lower py_isspace ascii_int
              (lit "in.txt") (lit "out.txt") sample Hnl)
    as (out & count & Hout & _ & Hagain).
  exists out, count. split; [exact Hout|exact Hagain].
Defined.
